(** * Monkey: lexer, Pratt parser, object model and tree-walking evaluator

    A shallow embedding of the Go packages [token], [lexer], [ast], [parser],
    [object] and [evaluator], followed by the properties of the
    specification stated over it.

    Conventions of the embedding:
    - a Go [string] is a [string] of bytes, a [byte] is an [ascii];
    - a Go interface value that may be [nil] is an [option];
    - loops that the Go code bounds by its input ([range] loops) are
      structural recursions; every other loop and every recursion between
      functions takes fuel, and running out of fuel is a result of its own,
      distinct from a returned value and from a panic;
    - heap objects carry the address they were allocated at, so that Go's
      pointer comparison is comparison of addresses. *)

From Stdlib Require Import ZArith Lia Ascii String DecimalString.
From stdpp Require Import base option list strings gmap fin_maps.

Local Open Scope string_scope.

(** ** Strings of bytes *)

(** The byte of the double quote character. *)
Definition dquote : ascii := ascii_of_nat 34.

(** Go's conversion [string(b)] of a byte: the UTF-8 encoding of the code
    point [b], one byte below 128 and two bytes from 128 on. *)
Definition string_of_byte (b : ascii) : string :=
  let n := nat_of_ascii b in
  if Nat.ltb n 128 then String b EmptyString
  else String (ascii_of_nat (192 + n / 64)%nat)
         (String (ascii_of_nat (128 + n mod 64)%nat) EmptyString).

(** [s[i]] for an index known to be in range; the zero byte otherwise. *)
Definition byte_at (s : string) (i : nat) : ascii :=
  match String.get i s with
  | Some c => c
  | None => Ascii.zero
  end.

(** [s[lo:hi]] *)
Definition slice (s : string) (lo hi : nat) : string :=
  String.substring lo (hi - lo)%nat s.

(** [strings.Join] *)
Fixpoint Join (l : list string) (sep : string) : string :=
  match l with
  | [] => EmptyString
  | [x] => x
  | x :: r => x +:+ sep +:+ Join r sep
  end.

(** [fmt.Sprintf("%d", n)] *)
Definition fmt_int (z : Z) : string := NilZero.string_of_int (Z.to_int z).
Definition fmt_nat (n : nat) : string := NilZero.string_of_uint (Nat.to_uint n).

(** ** Package token *)

Module token.

(** [TokenType] is a string in Go; the constants are pairwise different
    strings, so the type is an enumeration together with its spelling.
    [UNSET] is the zero value (the empty string) of a token that has not
    been read yet. *)
Inductive TokenType :=
| UNSET
| ILLEGAL | EOF
| IDENT | INT | STRING
| ASSIGN | PLUS | MINUS | BANG | ASTERISK | SLASH
| LT | GT | EQ | NOT_EQ
| COMMA | SEMICOLON | COLON
| LPAREN | RPAREN | LBRACE | RBRACE | LBRACKET | RBRACKET
| FUNCTION | LET | TRUE | FALSE | IF | ELSE | RETURN.

#[global] Instance TokenType_eq_dec : EqDecision TokenType.
Proof. solve_decision. Defined.

Definition spelling (t : TokenType) : string :=
  match t with
  | UNSET => EmptyString
  | ILLEGAL => "ILLEGAL" | EOF => "EOF"
  | IDENT => "IDENT" | INT => "INT" | STRING => "STRING"
  | ASSIGN => "=" | PLUS => "+" | MINUS => "-" | BANG => "!"
  | ASTERISK => "*" | SLASH => "/"
  | LT => ">" | GT => "<" | EQ => "==" | NOT_EQ => "!="
  | COMMA => "," | SEMICOLON => ";" | COLON => ":"
  | LPAREN => "(" | RPAREN => ")" | LBRACE => "{" | RBRACE => "}"
  | LBRACKET => "[" | RBRACKET => "]"
  | FUNCTION => "FUNCTION" | LET => "LET" | TRUE => "TRUE"
  | FALSE => "FALSE" | IF => "IF" | ELSE => "ELSE" | RETURN => "RETURN"
  end.

Record Token := mkToken { Type_ : TokenType; Literal : string }.

Definition zero : Token := mkToken UNSET EmptyString.

Definition keywords (ident : string) : option TokenType :=
  if String.eqb ident "fn" then Some FUNCTION
  else if String.eqb ident "let" then Some LET
  else if String.eqb ident "true" then Some TRUE
  else if String.eqb ident "false" then Some FALSE
  else if String.eqb ident "if" then Some IF
  else if String.eqb ident "else" then Some ELSE
  else if String.eqb ident "return" then Some RETURN
  else None.

Definition LookupIdent (ident : string) : TokenType :=
  match keywords ident with
  | Some tok => tok
  | None => IDENT
  end.

End token.

(** ** Package lexer *)

Module lexer.
Import token.

Record Lexer := mkLexer {
  input : string;
  position : nat;
  readPosition : nat;
  ch : ascii
}.

Definition isLetter (c : ascii) : bool :=
  (Ascii.leb "a" c && Ascii.leb c "z")
  || (Ascii.leb "A" c && Ascii.leb c "Z")
  || Ascii.eqb c "_".

Definition isDigit (c : ascii) : bool :=
  Ascii.leb "0" c && Ascii.leb c "9".

Definition isWhitespace (c : ascii) : bool :=
  Ascii.eqb c " " || Ascii.eqb c "009" || Ascii.eqb c "010"
  || Ascii.eqb c "013".

Definition readChar (l : Lexer) : Lexer :=
  {| input := input l;
     position := readPosition l;
     readPosition := S (readPosition l);
     ch := if Nat.leb (String.length (input l)) (readPosition l) then Ascii.zero
           else byte_at (input l) (readPosition l) |}.

Definition New (inp : string) : Lexer :=
  readChar {| input := inp; position := 0; readPosition := 0;
              ch := Ascii.zero |}.

Definition peekChar (l : Lexer) : ascii :=
  if Nat.leb (String.length (input l)) (readPosition l) then Ascii.zero
  else byte_at (input l) (readPosition l).

(** [for cond(l.ch) { l.readChar() }]: every iteration moves the cursor
    one byte to the right and the zero byte read past the end satisfies
    none of the conditions used, so [S (length input)] iterations are
    always enough ([readWhile_stops] below). *)
Fixpoint readWhile (cond : ascii -> bool) (n : nat) (l : Lexer) : Lexer :=
  match n with
  | 0 => l
  | S n' => if cond (ch l) then readWhile cond n' (readChar l) else l
  end.

Definition bound (l : Lexer) : nat := S (String.length (input l)).

Definition skipWhitespace (l : Lexer) : Lexer :=
  readWhile isWhitespace (bound l) l.

Definition readIdentifier (l : Lexer) : string * Lexer :=
  let startPosition := position l in
  let l' := readWhile isLetter (bound l) l in
  (slice (input l) startPosition (position l'), l').

Definition readNumber (l : Lexer) : string * Lexer :=
  let startPosition := position l in
  let l' := readWhile isDigit (bound l) l in
  (slice (input l) startPosition (position l'), l').

(** [for { l.readChar(); if l.ch is the quote or 0 { break } }] *)
Fixpoint readStringLoop (n : nat) (l : Lexer) : Lexer :=
  let l' := readChar l in
  if Ascii.eqb (ch l') dquote || Ascii.eqb (ch l') Ascii.zero then l'
  else match n with
       | 0 => l'
       | S n' => readStringLoop n' l'
       end.

Definition readString (l : Lexer) : string * Lexer :=
  let pos := (position l + 1)%nat in
  let l' := readStringLoop (bound l) l in
  (slice (input l) pos (position l'), l').

Definition newToken (tokenType : TokenType) (c : ascii) : Token :=
  mkToken tokenType (string_of_byte c).

Definition NextToken (l0 : Lexer) : Token * Lexer :=
  let l := skipWhitespace l0 in
  let c := ch l in
  let single (t : TokenType) := (newToken t c, readChar l) in
  if Ascii.eqb c "=" then
    if Ascii.eqb (peekChar l) "=" then
      let l1 := readChar l in
      (mkToken EQ (string_of_byte c +:+ string_of_byte (ch l1)), readChar l1)
    else single ASSIGN
  else if Ascii.eqb c "+" then single PLUS
  else if Ascii.eqb c "-" then single MINUS
  else if Ascii.eqb c "!" then
    if Ascii.eqb (peekChar l) "=" then
      let l1 := readChar l in
      (mkToken NOT_EQ (string_of_byte c +:+ string_of_byte (ch l1)),
       readChar l1)
    else single BANG
  else if Ascii.eqb c "*" then single ASTERISK
  else if Ascii.eqb c "/" then single SLASH
  else if Ascii.eqb c "<" then single LT
  else if Ascii.eqb c ">" then single GT
  else if Ascii.eqb c ";" then single SEMICOLON
  else if Ascii.eqb c "(" then single LPAREN
  else if Ascii.eqb c ")" then single RPAREN
  else if Ascii.eqb c "," then single COMMA
  else if Ascii.eqb c "{" then single LBRACE
  else if Ascii.eqb c "}" then single RBRACE
  else if Ascii.eqb c dquote then
    let '(lit, l1) := readString l in (mkToken STRING lit, readChar l1)
  else if Ascii.eqb c Ascii.zero then
    (mkToken EOF EmptyString, readChar l)
  else if isLetter c then
    let '(lit, l1) := readIdentifier l in (mkToken (LookupIdent lit) lit, l1)
  else if isDigit c then
    let '(lit, l1) := readNumber l in (mkToken INT lit, l1)
  else single ILLEGAL.

(** The first [n] tokens of an input, as the [lex] command prints them. *)
Fixpoint tokens (n : nat) (l : Lexer) : list Token :=
  match n with
  | 0 => []
  | S n' => let '(t, l') := NextToken l in t :: tokens n' l'
  end.

End lexer.

(** ** Package ast *)

Module ast.
Import token.

Record Identifier := mkIdentifier {
  Token : token.Token;
  Value : string
}.

(** A child of interface type [Expression] may be [nil] and is an
    [option]. [*BlockStatement] and [*Identifier] children are pointers
    that every producer of the node fills; they are taken as present,
    except [Alternative], which the code tests against [nil].
    [parseLetStatement] returns a [*LetStatement] that may be a nil
    pointer and that [parseStatement] converts to the interface
    [Statement]: the interface value is then not [nil], it holds the nil
    pointer. [LetStatement_nil] is that value. *)
#[local] Unset Elimination Schemes.
Inductive Expression :=
| Ident (i : Identifier)
| IntegerLiteral (tok : token.Token) (v : Z)
| Boolean (tok : token.Token) (v : bool)
| PrefixExpression (tok : token.Token) (Operator : string)
    (Right : option Expression)
| InfixExpression (tok : token.Token) (Left : option Expression)
    (Operator : string) (Right : option Expression)
| IfExpression (tok : token.Token) (Condition : option Expression)
    (Consequence : BlockStatement) (Alternative : option BlockStatement)
| FunctionLiteral (tok : token.Token) (Parameters : list Identifier)
    (Body : BlockStatement)
| CallExpression (tok : token.Token) (Function : option Expression)
    (Arguments : list (option Expression))
with Statement :=
| LetStatement (tok : token.Token) (Name : Identifier)
    (Value : option Expression)
| LetStatement_nil
| ReturnStatement (tok : token.Token) (ReturnValue : option Expression)
| ExpressionStatement (tok : token.Token) (Expression : option Expression)
| BlockStmt (b : BlockStatement)
with BlockStatement :=
| Block (tok : token.Token) (Statements : list Statement).
#[local] Set Elimination Schemes.

Record Program := mkProgram { Statements : list Statement }.

(** The interface [Node], as far as [Eval] tells its values apart. *)
Inductive Node :=
| NodeNil
| NodeProgram (p : Program)
| NodeStatement (s : Statement)
| NodeExpression (e : Expression).

Definition expr_node (e : option Expression) : Node :=
  match e with
  | Some e => NodeExpression e
  | None => NodeNil
  end.

(** [String()]. [None] is the panic of a method call through a nil
    interface or a nil pointer. *)
Definition cat (a b : option string) : option string :=
  match a, b with
  | Some x, Some y => Some (x +:+ y)
  | _, _ => None
  end.

Definition or_nil (s : option (option string)) : option string :=
  match s with
  | Some r => r
  | None => Some "<nil>"
  end.

Fixpoint all_some (l : list (option string)) : option (list string) :=
  match l with
  | [] => Some []
  | Some x :: r => option_map (cons x) (all_some r)
  | None :: _ => None
  end.

Fixpoint Expression_String (e : Expression) : option string :=
  match e with
  | Ident i => Some (Value i)
  | IntegerLiteral tok _ => Some (Literal tok)
  | Boolean tok _ => Some (Literal tok)
  | PrefixExpression _ op rhs =>
      match rhs with
      | Some r => cat (Some ("(" +:+ op)) (cat (Expression_String r) (Some ")"))
      | None => None
      end
  | InfixExpression _ lhs op rhs =>
      match lhs, rhs with
      | Some a, Some b =>
          cat (Some "(")
            (cat (Expression_String a)
               (cat (Some (" " +:+ op +:+ " "))
                  (cat (Expression_String b) (Some ")"))))
      | _, _ => None
      end
  | IfExpression _ cond consequence alt =>
      match cond with
      | Some c =>
          cat (Some "if")
            (cat (Expression_String c)
               (cat (Some " ")
                  (cat (BlockStatement_String consequence)
                     match alt with
                     | Some a => cat (Some "else ") (BlockStatement_String a)
                     | None => Some EmptyString
                     end)))
      | None => None
      end
  | FunctionLiteral tok params body =>
      cat (Some (Literal tok +:+ "(" +:+ Join (map Value params) ", " +:+ ")"))
        (BlockStatement_String body)
  | CallExpression _ fn args =>
      match fn with
      | Some f =>
          cat (Expression_String f)
            (cat (Some "(")
               (cat (option_map (fun l => Join l ", ")
                       (all_some
                          (map (fun a => match a with
                                         | Some a => Expression_String a
                                         | None => None
                                         end) args)))
                  (Some ")")))
      | None => None
      end
  end
with Statement_String (s : Statement) : option string :=
  match s with
  | LetStatement tok name value =>
      cat (Some (Literal tok +:+ " " +:+ Value name +:+ " = "))
        (cat (or_nil (option_map Expression_String value)) (Some ";"))
  | LetStatement_nil => None
  | ReturnStatement tok value =>
      cat (Some (Literal tok +:+ " "))
        (cat (or_nil (option_map Expression_String value)) (Some ";"))
  | ExpressionStatement _ e => or_nil (option_map Expression_String e)
  | BlockStmt b => BlockStatement_String b
  end
with BlockStatement_String (b : BlockStatement) : option string :=
  match b with
  | Block _ stmts =>
      (fix go (l : list Statement) : option string :=
         match l with
         | [] => Some EmptyString
         | s :: r => cat (Statement_String s) (go r)
         end) stmts
  end.

Definition Program_String (p : Program) : option string :=
  BlockStatement_String (Block token.zero (Statements p)).

End ast.

(** ** [strconv.ParseInt(s, 0, 64)] on the literals of [INT] tokens *)

(** The lexer gives an [INT] token a non-empty run of decimal digits. With
    base 0 a leading [0] selects base 8 and is dropped; a digit that is not
    below the base is a syntax error and a value above [2^63 - 1] a range
    error. Both are [None]. Signs, underscores and the prefixes [0x], [0o],
    [0b] cannot occur in such a literal and are errors of this model. *)
Fixpoint parse_digits (base acc : Z) (s : string) : option Z :=
  match s with
  | EmptyString => Some acc
  | String c r =>
      let d := (Z.of_nat (nat_of_ascii c) - 48)%Z in
      if lexer.isDigit c && (d <? base)%Z
      then parse_digits base (acc * base + d)%Z r
      else None
  end.

Definition ParseInt (s : string) : option Z :=
  let r :=
    match s with
    | EmptyString => None
    | String c rest =>
        if Ascii.eqb c "0" then parse_digits 8 0 rest
        else parse_digits 10 0 s
    end in
  match r with
  | Some v => if (v <=? 9223372036854775807)%Z then Some v else None
  | None => None
  end.

(** [fmt.Sprintf("%q", s)] for a string of printable ASCII without quotes
    and backslashes, which is what an [INT] literal is. *)
Definition fmt_q (s : string) : string :=
  String dquote (s +:+ String dquote EmptyString).

(** ** Package parser *)

Module parser.
Import token ast.

Definition LOWEST : nat := 1.
Definition EQUALS : nat := 2.
Definition LESSGREATER : nat := 3.
Definition SUM : nat := 4.
Definition PRODUCT : nat := 5.
Definition PREFIX : nat := 6.
Definition CALL : nat := 7.

Definition precedences (t : TokenType) : option nat :=
  match t with
  | EQ | NOT_EQ => Some EQUALS
  | LT | GT => Some LESSGREATER
  | PLUS | MINUS => Some SUM
  | SLASH | ASTERISK => Some PRODUCT
  | _ => None
  end.

(** The parse functions that [New] puts into the two tables are methods
    of the parser; a table entry names the method. *)
Inductive prefixParseFn :=
| fn_parseIdentifier
| fn_parseIntegerLiteral
| fn_parsePrefixExpression
| fn_parseBoolean
| fn_parseIfExpression
| fn_parseGroupedExpression.

Inductive infixParseFn :=
| fn_parseInfixExpression.

Record Parser := mkParser {
  l : lexer.Lexer;
  curToken : token.Token;
  peekToken : token.Token;
  errors : list string;
  prefixParseFns : TokenType -> option prefixParseFn;
  infixParseFns : TokenType -> option infixParseFn
}.

Definition with_lexer (p : Parser) (l' : lexer.Lexer) (cur peek : token.Token)
  : Parser :=
  mkParser l' cur peek (errors p) (prefixParseFns p) (infixParseFns p).

Definition add_error (p : Parser) (msg : string) : Parser :=
  mkParser (l p) (curToken p) (peekToken p) (errors p ++ [msg])%list
    (prefixParseFns p) (infixParseFns p).

Definition registerPrefix (tokenType : TokenType) (fn : prefixParseFn)
  (p : Parser) : Parser :=
  mkParser (l p) (curToken p) (peekToken p) (errors p)
    (fun t => if decide (t = tokenType) then Some fn else prefixParseFns p t)
    (infixParseFns p).

Definition registerInfix (tokenType : TokenType) (fn : infixParseFn)
  (p : Parser) : Parser :=
  mkParser (l p) (curToken p) (peekToken p) (errors p) (prefixParseFns p)
    (fun t => if decide (t = tokenType) then Some fn else infixParseFns p t).

Definition nextToken (p : Parser) : Parser :=
  let '(t, l') := lexer.NextToken (l p) in
  with_lexer p l' (peekToken p) t.

Definition New (lx : lexer.Lexer) : Parser :=
  let p := mkParser lx token.zero token.zero [] (fun _ => None)
             (fun _ => None) in
  let p := registerInfix PLUS fn_parseInfixExpression p in
  let p := registerInfix MINUS fn_parseInfixExpression p in
  let p := registerInfix SLASH fn_parseInfixExpression p in
  let p := registerInfix ASTERISK fn_parseInfixExpression p in
  let p := registerInfix EQ fn_parseInfixExpression p in
  let p := registerInfix NOT_EQ fn_parseInfixExpression p in
  let p := registerInfix LT fn_parseInfixExpression p in
  let p := registerInfix GT fn_parseInfixExpression p in
  let p := registerPrefix IDENT fn_parseIdentifier p in
  let p := registerPrefix INT fn_parseIntegerLiteral p in
  let p := registerPrefix BANG fn_parsePrefixExpression p in
  let p := registerPrefix MINUS fn_parsePrefixExpression p in
  let p := registerPrefix TRUE fn_parseBoolean p in
  let p := registerPrefix FALSE fn_parseBoolean p in
  let p := registerPrefix IF fn_parseIfExpression p in
  let p := registerPrefix LPAREN fn_parseGroupedExpression p in
  nextToken (nextToken p).

Definition Errors (p : Parser) : list string := errors p.

Definition peekError (t : TokenType) (p : Parser) : Parser :=
  add_error p
    ("expected next token to be " +:+ spelling t +:+ ", got "
     +:+ spelling (Type_ (peekToken p)) +:+ " instead").

Definition noPrefixParseFnError (t : TokenType) (p : Parser) : Parser :=
  add_error p ("no prefix parse function for " +:+ spelling t +:+ " found").

Definition curTokenIs (t : TokenType) (p : Parser) : bool :=
  bool_decide (Type_ (curToken p) = t).

Definition peekTokenIs (t : TokenType) (p : Parser) : bool :=
  bool_decide (Type_ (peekToken p) = t).

Definition expectPeek (t : TokenType) (p : Parser) : bool * Parser :=
  if peekTokenIs t p then (true, nextToken p)
  else (false, peekError t p).

Definition peekPrecedence (p : Parser) : nat :=
  match precedences (Type_ (peekToken p)) with
  | Some n => n
  | None => LOWEST
  end.

Definition curPrecedence (p : Parser) : nat :=
  match precedences (Type_ (curToken p)) with
  | Some n => n
  | None => LOWEST
  end.

(** A parse function is a state transformer on the parser; [None] means
    that the fuel did not suffice to reach its [return]. *)
Definition Parse (A : Type) : Type := Parser -> option (A * Parser).

Definition parseIdentifier : Parse (option Expression) := fun p =>
  Some (Some (Ident (mkIdentifier (curToken p) (Literal (curToken p)))), p).

Definition parseIntegerLiteral : Parse (option Expression) := fun p =>
  match ParseInt (Literal (curToken p)) with
  | None =>
      Some (None,
            add_error p
              ("could not parse " +:+ fmt_q (Literal (curToken p))
               +:+ " as integer"))
  | Some val => Some (Some (IntegerLiteral (curToken p) val), p)
  end.

Definition parseBoolean : Parse (option Expression) := fun p =>
  Some (Some (Boolean (curToken p) (curTokenIs TRUE p)), p).

(** [for !p.curTokenIs(token.SEMICOLON) { p.nextToken() }] *)
Fixpoint skipToSemicolon (n : nat) (p : Parser) : option Parser :=
  if curTokenIs SEMICOLON p then Some p
  else match n with
       | 0 => None
       | S n' => skipToSemicolon n' (nextToken p)
       end.

Definition parseLetStatement (fuel : nat) : Parse Statement := fun p =>
  let tok := curToken p in
  let '(ok, p) := expectPeek IDENT p in
  if negb ok then Some (LetStatement_nil, p) else
  let name := mkIdentifier (curToken p) (Literal (curToken p)) in
  let '(ok, p) := expectPeek ASSIGN p in
  if negb ok then Some (LetStatement_nil, p) else
  match skipToSemicolon fuel p with
  | None => None
  | Some p => Some (LetStatement tok name None, p)
  end.

Definition parseReturnStatement (fuel : nat) : Parse Statement := fun p =>
  let tok := curToken p in
  let p := nextToken p in
  match skipToSemicolon fuel p with
  | None => None
  | Some p => Some (ReturnStatement tok None, p)
  end.

Section Productions.
(** Fuel of the loops of one production, and the two functions the
    productions call one another through. *)
Variable fuel : nat.
Variable parseExpression : nat -> Parse (option Expression).
Variable parseStatement : Parse (option Statement).

Definition parsePrefixExpression : Parse (option Expression) := fun p =>
  let tok := curToken p in
  let p := nextToken p in
  match parseExpression PREFIX p with
  | None => None
  | Some (rhs, p) => Some (Some (PrefixExpression tok (Literal tok) rhs), p)
  end.

Definition parseGroupedExpression : Parse (option Expression) := fun p =>
  let p := nextToken p in
  match parseExpression LOWEST p with
  | None => None
  | Some (exp, p) =>
      let '(ok, p) := expectPeek RPAREN p in
      if negb ok then Some (None, p) else Some (exp, p)
  end.

(** The loop of [parseBlockStatement]. *)
Fixpoint parseBlockStatements (n : nat) (stmts : list Statement)
  (p : Parser) : option (list Statement * Parser) :=
  if negb (curTokenIs RBRACE p) && negb (curTokenIs EOF p) then
    match n with
    | 0 => None
    | S n' =>
        match parseStatement p with
        | None => None
        | Some (stmt, p) =>
            let stmts := match stmt with
                         | Some s => (stmts ++ [s])%list
                         | None => stmts
                         end in
            parseBlockStatements n' stmts (nextToken p)
        end
    end
  else Some (stmts, p).

Definition parseBlockStatement : Parse BlockStatement := fun p =>
  let tok := curToken p in
  let p := nextToken p in
  match parseBlockStatements fuel [] p with
  | None => None
  | Some (stmts, p) => Some (Block tok stmts, p)
  end.

Definition parseIfExpression : Parse (option Expression) := fun p =>
  let tok := curToken p in
  let '(ok, p) := expectPeek LPAREN p in
  if negb ok then Some (None, p) else
  let p := nextToken p in
  match parseExpression LOWEST p with
  | None => None
  | Some (cond, p) =>
      let '(ok, p) := expectPeek RPAREN p in
      if negb ok then Some (None, p) else
      let '(ok, p) := expectPeek LBRACE p in
      if negb ok then Some (None, p) else
      match parseBlockStatement p with
      | None => None
      | Some (consequence, p) =>
          if peekTokenIs ELSE p then
            let p := nextToken p in
            let '(ok, p) := expectPeek LBRACE p in
            if negb ok then Some (None, p) else
            match parseBlockStatement p with
            | None => None
            | Some (alternative, p) =>
                Some (Some (IfExpression tok cond consequence
                              (Some alternative)), p)
            end
          else Some (Some (IfExpression tok cond consequence None), p)
      end
  end.

Definition parseInfixExpression (lhs : option Expression)
  : Parse (option Expression) := fun p =>
  let tok := curToken p in
  let precedence := curPrecedence p in
  let p := nextToken p in
  match parseExpression precedence p with
  | None => None
  | Some (rhs, p) =>
      Some (Some (InfixExpression tok lhs (Literal tok) rhs), p)
  end.

Definition call_prefix (fn : prefixParseFn) : Parse (option Expression) :=
  match fn with
  | fn_parseIdentifier => parseIdentifier
  | fn_parseIntegerLiteral => parseIntegerLiteral
  | fn_parsePrefixExpression => parsePrefixExpression
  | fn_parseBoolean => parseBoolean
  | fn_parseIfExpression => parseIfExpression
  | fn_parseGroupedExpression => parseGroupedExpression
  end.

Definition call_infix (fn : infixParseFn) (lhs : option Expression)
  : Parse (option Expression) :=
  match fn with
  | fn_parseInfixExpression => parseInfixExpression lhs
  end.

(** The loop of [parseExpression]. *)
Fixpoint parseInfixes (n : nat) (precedence : nat)
  (leftExp : option Expression) (p : Parser)
  : option (option Expression * Parser) :=
  if negb (peekTokenIs SEMICOLON p)
     && Nat.ltb precedence (peekPrecedence p) then
    match infixParseFns p (Type_ (peekToken p)) with
    | None => Some (leftExp, p)
    | Some infix =>
        match n with
        | 0 => None
        | S n' =>
            match call_infix infix leftExp (nextToken p) with
            | None => None
            | Some (leftExp, p) => parseInfixes n' precedence leftExp p
            end
        end
    end
  else Some (leftExp, p).

Definition parseExpression_body (precedence : nat)
  : Parse (option Expression) := fun p =>
  match prefixParseFns p (Type_ (curToken p)) with
  | None => Some (None, noPrefixParseFnError (Type_ (curToken p)) p)
  | Some prefix =>
      match call_prefix prefix p with
      | None => None
      | Some (leftExp, p) => parseInfixes fuel precedence leftExp p
      end
  end.

Definition parseExpressionStatement : Parse Statement := fun p =>
  let tok := curToken p in
  match parseExpression LOWEST p with
  | None => None
  | Some (e, p) =>
      let p := if peekTokenIs SEMICOLON p then nextToken p else p in
      Some (ExpressionStatement tok e, p)
  end.

Definition parseStatement_body : Parse (option Statement) := fun p =>
  let as_interface (r : option (Statement * Parser)) :=
    match r with
    | Some (s, p) => Some (Some s, p)
    | None => None
    end in
  match Type_ (curToken p) with
  | LET => as_interface (parseLetStatement fuel p)
  | RETURN => as_interface (parseReturnStatement fuel p)
  | _ => as_interface (parseExpressionStatement p)
  end.

End Productions.

(** [parseExpression] and [parseStatement]; each call between the two
    costs one unit of fuel. *)
Fixpoint parseExpression (n : nat) (precedence : nat)
  : Parse (option Expression) :=
  match n with
  | 0 => fun _ => None
  | S n' =>
      parseExpression_body n' (parseExpression n') (parseStatement n')
        precedence
  end
with parseStatement (n : nat) : Parse (option Statement) :=
  match n with
  | 0 => fun _ => None
  | S n' => parseStatement_body n' (parseExpression n')
  end.

(** The loop of [ParseProgram]. *)
Fixpoint parseStatements (n : nat) (stmts : list Statement) (p : Parser)
  : option (list Statement * Parser) :=
  if bool_decide (Type_ (curToken p) = EOF) then Some (stmts, p)
  else match n with
       | 0 => None
       | S n' =>
           match parseStatement n' p with
           | None => None
           | Some (stmt, p) =>
               let stmts := match stmt with
                            | Some s => (stmts ++ [s])%list
                            | None => stmts
                            end in
               parseStatements n' stmts (nextToken p)
           end
       end.

Definition ParseProgram (n : nat) : Parse Program := fun p =>
  match parseStatements n [] p with
  | None => None
  | Some (stmts, p) => Some (mkProgram stmts, p)
  end.

(** Lex and parse a source text, as the commands [parse] and [eval] do. *)
Definition parse (n : nat) (src : string) : option (Program * list string) :=
  match ParseProgram n (New (lexer.New src)) with
  | None => None
  | Some (prog, p) => Some (prog, Errors p)
  end.

End parser.

(** ** Results of running code *)

(** A Go function returns a value, panics, or is still running when the
    fuel of the model is used up. *)
Inductive Outcome (A : Type) : Type :=
| Ok (a : A)
| Panic
| OutOfFuel.
Arguments Ok {A} a.
Arguments Panic {A}.
Arguments OutOfFuel {A}.

(** ** Package object *)

Module object.

Definition addr := nat.
Definition envid := nat.

Definition RETURN_VALUE_OBJ := "RETURN_VALUE".
Definition ERROR_OBJ := "ERROR".
Definition NULL_OBJ := "NULL".
Definition INTEGER_OBJ := "INTEGER".
Definition BOOLEAN_OBJ := "BOOLEAN".
Definition STRING_OBJ := "STRING".
Definition ARRAY_OBJ := "ARRAY".
Definition FUNCTION_OBJ := "FUNCTION".
Definition BUILTIN_OBJ := "BUILTIN".

(** The host functions that the table [builtins] wraps; a [Builtin]
    object names the one it holds in [Fn]. *)
Inductive BuiltinFunction :=
| fn_len | fn_first | fn_last | fn_rest | fn_push | fn_puts.

(** An [Object] is a pointer to a struct. The struct is never written
    after its allocation, so the pointer is modelled by the address [a]
    together with the fields. A field of interface type [Object] may be
    [nil]; [Env] points to an environment of the heap. *)
#[local] Unset Elimination Schemes.
Inductive Object :=
| Integer (a : addr) (Value : Z)
| Boolean (a : addr) (Value : bool)
| Null (a : addr)
| ReturnValue (a : addr) (Value : option Object)
| Error (a : addr) (Message : string)
| Function (a : addr) (Parameters : list ast.Identifier)
    (Body : ast.BlockStatement) (Env : envid)
| String_ (a : addr) (Value : string)
| Array (a : addr) (Elements : list (option Object))
| Builtin (a : addr) (Fn : BuiltinFunction).
#[local] Set Elimination Schemes.

Definition address (o : Object) : addr :=
  match o with
  | Integer a _ | Boolean a _ | Null a | ReturnValue a _ | Error a _
  | Function a _ _ _ | String_ a _ | Array a _ | Builtin a _ => a
  end.

Definition Type_ (o : Object) : string :=
  match o with
  | Integer _ _ => INTEGER_OBJ
  | Boolean _ _ => BOOLEAN_OBJ
  | Null _ => NULL_OBJ
  | ReturnValue _ _ => RETURN_VALUE_OBJ
  | Error _ _ => ERROR_OBJ
  | Function _ _ _ _ => FUNCTION_OBJ
  | String_ _ _ => STRING_OBJ
  | Array _ _ => ARRAY_OBJ
  | Builtin _ _ => BUILTIN_OBJ
  end.

Definition newline : string := String (ascii_of_nat 10) EmptyString.

(** [Inspect()]; [None] is the panic of a call through [nil]. *)
Fixpoint Inspect (o : Object) : option string :=
  match o with
  | Integer _ v => Some (fmt_int v)
  | Boolean _ v => Some (if v then "true" else "false")
  | Null _ => Some "null"
  | ReturnValue _ v =>
      match v with
      | Some v => Inspect v
      | None => None
      end
  | Error _ msg => Some ("error: " +:+ msg)
  | Function _ params body _ =>
      ast.cat
        (Some ("fn(" +:+ Join (map ast.Value params) ", " +:+ ") {"
               +:+ newline))
        (ast.cat (ast.BlockStatement_String body) (Some (newline +:+ "}")))
  | String_ _ v => Some v
  | Array _ els =>
      ast.cat (Some "[")
        (ast.cat
           (option_map (fun l => Join l ", ")
              (ast.all_some
                 (map (fun e => match e with
                                | Some e => Inspect e
                                | None => None
                                end) els)))
           (Some "]"))
  | Builtin _ _ => Some "builtin function"
  end.

(** [a == b] on two values of the interface [Object]: the same dynamic
    type and the same pointer, or both [nil]. *)
Definition same (a b : option Object) : bool :=
  match a, b with
  | None, None => true
  | Some x, Some y =>
      String.eqb (Type_ x) (Type_ y) && Nat.eqb (address x) (address y)
  | _, _ => false
  end.

Record Environment := mkEnvironment {
  store : gmap string (option Object);
  outer : option envid
}.

(** The heap: the next free address, the environments allocated so far
    (an [envid] is an index into [envs]), and what was printed. *)
Record Heap := mkHeap {
  next : addr;
  envs : list Environment;
  stdout : list string
}.

Definition M (A : Type) : Type := Heap -> Outcome (A * Heap).

Definition ret {A} (a : A) : M A := fun h => Ok (a, h).
Definition panic {A} : M A := fun _ => Panic.
Definition bind {A B} (m : M A) (k : A -> M B) : M B := fun h =>
  match m h with
  | Ok (a, h') => k a h'
  | Panic => Panic
  | OutOfFuel => OutOfFuel
  end.

(** The address of a new struct. *)
Definition alloc : M addr := fun h =>
  Ok (next h, mkHeap (S (next h)) (envs h) (stdout h)).

Definition NewEnvironment : M envid := fun h =>
  Ok (length (envs h),
      mkHeap (next h) (envs h ++ [mkEnvironment ∅ None])%list (stdout h)).

Definition NewExtendedEnvironment (o : envid) : M envid := fun h =>
  Ok (length (envs h),
      mkHeap (next h) (envs h ++ [mkEnvironment ∅ (Some o)])%list (stdout h)).

(** [e.Get(name)], the pair [(obj, ok)] as an option that is [Some obj]
    when [ok]. An [envid] outside the heap is a bad pointer. *)
Fixpoint Get (n : nat) (e : envid) (name : string)
  : M (option (option Object)) := fun h =>
  match envs h !! e with
  | None => Panic
  | Some env =>
      match store env !! name, outer env with
      | Some obj, _ => Ok (Some obj, h)
      | None, None => Ok (None, h)
      | None, Some o =>
          match n with
          | 0 => OutOfFuel
          | S n' => Get n' o name h
          end
      end
  end.

Definition Set_ (e : envid) (name : string) (obj : option Object)
  : M (option Object) := fun h =>
  match envs h !! e with
  | None => Panic
  | Some env =>
      Ok (obj,
          mkHeap (next h)
            (<[e := mkEnvironment (<[name := obj]> (store env)) (outer env)]>
               (envs h))
            (stdout h))
  end.

Definition Println (s : string) : M unit := fun h =>
  Ok (tt, mkHeap (next h) (envs h) (stdout h ++ [s +:+ newline])%list).

End object.

Notation "'let*' x ':=' m 'in' k" := (object.bind m (fun x => k))
  (at level 10, x pattern, k at level 200).

(** ** Package evaluator *)

Module evaluator.
Import ast object.

(** The three objects allocated once, when the package is initialised,
    followed by the six of the table [builtins]. *)
Definition TRUE : Object := object.Boolean 0 true.
Definition FALSE : Object := object.Boolean 1 false.
Definition NULL : Object := Null 2.

Definition builtins (name : string) : option Object :=
  if String.eqb name "len" then Some (Builtin 3 fn_len)
  else if String.eqb name "first" then Some (Builtin 4 fn_first)
  else if String.eqb name "last" then Some (Builtin 5 fn_last)
  else if String.eqb name "rest" then Some (Builtin 6 fn_rest)
  else if String.eqb name "push" then Some (Builtin 7 fn_push)
  else if String.eqb name "puts" then Some (Builtin 8 fn_puts)
  else None.

(** The heap after package initialisation. *)
Definition init : Heap := mkHeap 9 [] [].

(** ** 64-bit signed arithmetic *)

Definition wrap64 (z : Z) : Z :=
  ((z + 9223372036854775808) mod 18446744073709551616
   - 9223372036854775808)%Z.

(** ** Helpers *)

(** [obj.Type()] through the interface. *)
Definition TypeOf (obj : option Object) : M string :=
  match obj with
  | Some o => ret (Type_ o)
  | None => panic
  end.

(** [obj.Inspect()] through the interface. *)
Definition InspectOf (obj : option Object) : M string :=
  match obj with
  | Some o => match Inspect o with
              | Some s => ret s
              | None => panic
              end
  | None => panic
  end.

(** [newError(format, a...)] with the message already formatted. *)
Definition newError (msg : string) : M (option Object) :=
  let* a := alloc in ret (Some (Error a msg)).

Definition nativeBoolToBooleanObject (input : bool) : Object :=
  if input then TRUE else FALSE.

Definition isTruthy (obj : option Object) : bool :=
  if same obj (Some NULL) || same obj (Some FALSE) then false else true.

Definition isError (obj : option Object) : M bool :=
  let* t := TypeOf obj in ret (String.eqb t ERROR_OBJ).

Definition unwrapReturnVal (obj : option Object) : option Object :=
  match obj with
  | Some (ReturnValue _ v) => v
  | _ => obj
  end.

Definition evalBangOperatorExpression (rhs : option Object) : option Object :=
  if same rhs (Some TRUE) then Some FALSE
  else if same rhs (Some FALSE) then Some TRUE
  else if same rhs (Some NULL) then Some TRUE
  else Some FALSE.

Definition evalMinusPrefixOperatorExpression (rhs : option Object)
  : M (option Object) :=
  let* t := TypeOf rhs in
  if negb (String.eqb t INTEGER_OBJ) then
    newError ("unknown operator: -" +:+ t)
  else
    match rhs with
    | Some (Integer _ value) =>
        let* a := alloc in ret (Some (Integer a (wrap64 (- value))))
    | _ => panic
    end.

Definition evalPrefixExpression (operator : string) (rhs : option Object)
  : M (option Object) :=
  if String.eqb operator "!" then ret (evalBangOperatorExpression rhs)
  else if String.eqb operator "-" then evalMinusPrefixOperatorExpression rhs
  else
    let* t := TypeOf rhs in
    newError ("unknown operator: " +:+ operator +:+ t).

Definition newInteger (v : Z) : M (option Object) :=
  let* a := alloc in ret (Some (Integer a v)).

Definition evalIntegerInfixExpression (operator : string)
  (lhs rhs : option Object) : M (option Object) :=
  match lhs, rhs with
  | Some (Integer _ leftVal), Some (Integer _ rightVal) =>
      if String.eqb operator "+" then newInteger (wrap64 (leftVal + rightVal))
      else if String.eqb operator "-" then
        newInteger (wrap64 (leftVal - rightVal))
      else if String.eqb operator "*" then
        newInteger (wrap64 (leftVal * rightVal))
      else if String.eqb operator "/" then
        if (rightVal =? 0)%Z then panic
        else newInteger (wrap64 (Z.quot leftVal rightVal))
      else if String.eqb operator ">" then
        ret (Some (nativeBoolToBooleanObject (rightVal <? leftVal)%Z))
      else if String.eqb operator "<" then
        ret (Some (nativeBoolToBooleanObject (leftVal <? rightVal)%Z))
      else if String.eqb operator "==" then
        ret (Some (nativeBoolToBooleanObject (leftVal =? rightVal)%Z))
      else if String.eqb operator "!=" then
        ret (Some (nativeBoolToBooleanObject (negb (leftVal =? rightVal)%Z)))
      else
        newError ("unknown operator: " +:+ INTEGER_OBJ +:+ " " +:+ operator
                  +:+ " " +:+ INTEGER_OBJ)
  | _, _ => panic
  end.

Definition evalInfixExpression (operator : string) (lhs rhs : option Object)
  : M (option Object) :=
  let* lt := TypeOf lhs in
  let* rt := TypeOf rhs in
  if negb (String.eqb lt rt) then
    newError ("type mismatch: " +:+ lt +:+ " " +:+ operator +:+ " " +:+ rt)
  else if String.eqb lt INTEGER_OBJ && String.eqb rt INTEGER_OBJ then
    evalIntegerInfixExpression operator lhs rhs
  else if String.eqb operator "==" then
    ret (Some (nativeBoolToBooleanObject (same lhs rhs)))
  else if String.eqb operator "!=" then
    ret (Some (nativeBoolToBooleanObject (negb (same lhs rhs))))
  else
    newError ("unknown operator: " +:+ lt +:+ " " +:+ operator +:+ " " +:+ rt).

(** The loop of [extendedFunctionEnv]: [env.Set(param.Value, args[paramID])]
    for each parameter in turn. *)
Fixpoint bindParameters (env : envid) (paramID : nat)
  (params : list Identifier) (args : list (option Object)) : M unit :=
  match params with
  | [] => ret tt
  | param :: rest =>
      match args !! paramID with
      | None => panic
      | Some arg =>
          let* _ := Set_ env (Value param) arg in
          bindParameters env (S paramID) rest args
      end
  end.

Definition extendedFunctionEnv (fnEnv : envid) (params : list Identifier)
  (args : list (option Object)) : M envid :=
  let* env := NewExtendedEnvironment fnEnv in
  let* _ := bindParameters env 0 params args in
  ret env.

(** ** The table [builtins] *)

Definition wrongArity (n : nat) : M (option Object) :=
  newError ("wrong number of arguments. got=" +:+ fmt_nat n +:+ ", want=1").

Definition notSupported (name : string) (arg : option Object)
  : M (option Object) :=
  let* t := TypeOf arg in
  newError ("argument to `" +:+ name +:+ "` not supported, got " +:+ t).

Definition builtin_len (args : list (option Object)) : M (option Object) :=
  match args with
  | [arg] =>
      match arg with
      | Some (String_ _ v) => newInteger (Z.of_nat (String.length v))
      | Some (Array _ els) => newInteger (Z.of_nat (length els))
      | _ => notSupported "len" arg
      end
  | _ => wrongArity (length args)
  end.

Definition builtin_first (args : list (option Object)) : M (option Object) :=
  match args with
  | [arg] =>
      match arg with
      | Some (String_ _ v) =>
          match String.get 0 v with
          | None => panic
          | Some b =>
              let* a := alloc in ret (Some (String_ a (string_of_byte b)))
          end
      | Some (Array _ els) =>
          match els !! 0 with
          | None => panic
          | Some e => ret e
          end
      | _ => notSupported "first" arg
      end
  | _ => wrongArity (length args)
  end.

Definition builtin_last (args : list (option Object)) : M (option Object) :=
  match args with
  | [arg] =>
      match arg with
      | Some (String_ _ v) =>
          if Nat.eqb (String.length v) 0 then ret (Some NULL)
          else
            let* a := alloc in
            ret (Some (String_ a
                         (string_of_byte
                            (byte_at v (String.length v - 1)%nat))))
      | Some (Array _ els) =>
          if Nat.eqb (length els) 0 then ret (Some NULL)
          else
            match els !! (length els - 1)%nat with
            | None => panic
            | Some e => ret e
            end
      | _ => notSupported "last" arg
      end
  | _ => wrongArity (length args)
  end.

Definition builtin_rest (args : list (option Object)) : M (option Object) :=
  match args with
  | [arg] =>
      match arg with
      | Some (String_ _ v) =>
          if Nat.eqb (String.length v) 0 then ret (Some NULL)
          else
            let* a := alloc in
            ret (Some (String_ a (slice v 1 (String.length v))))
      | Some (Array _ els) =>
          if Nat.eqb (length els) 0 then ret (Some NULL)
          else let* a := alloc in ret (Some (Array a (drop 1 els)))
      | _ => notSupported "rest" arg
      end
  | _ => wrongArity (length args)
  end.

Definition builtin_push (args : list (option Object)) : M (option Object) :=
  if Nat.ltb (length args) 2 then
    newError
      ("wrong number of arguments in call to push: "
       +:+ "need push(array, elements...). got=" +:+ fmt_nat (length args)
       +:+ ", want=>1")
  else
    match args with
    | Some (Array _ els) :: more =>
        let* a := alloc in ret (Some (Array a (els ++ more)%list))
    | _ => ret (Some NULL)
    end.

Fixpoint builtin_puts (args : list (option Object)) : M (option Object) :=
  match args with
  | [] => ret (Some NULL)
  | arg :: rest =>
      let* s := InspectOf arg in
      let* _ := Println s in
      builtin_puts rest
  end.

(** [b.Fn(args...)] *)
Definition call_builtin (fn : BuiltinFunction)
  : list (option Object) -> M (option Object) :=
  match fn with
  | fn_len => builtin_len
  | fn_first => builtin_first
  | fn_last => builtin_last
  | fn_rest => builtin_rest
  | fn_push => builtin_push
  | fn_puts => builtin_puts
  end.

Section Eval.
(** Fuel of an identifier lookup through the chain of environments, and
    [Eval] itself for the calls back into it. *)
Variable fuel : nat.
Variable Eval : Node -> envid -> M (option Object).

Fixpoint evalProgram_from (result : option Object)
  (stmts : list Statement) (environment : envid) : M (option Object) :=
  match stmts with
  | [] => ret result
  | statement :: rest =>
      let* result := Eval (NodeStatement statement) environment in
      match result with
      | Some (ReturnValue _ v) => ret v
      | Some (Error _ _) => ret result
      | _ => evalProgram_from result rest environment
      end
  end.

Definition evalProgram (stmts : list Statement) (environment : envid)
  : M (option Object) :=
  evalProgram_from None stmts environment.

Fixpoint evalBlockStatement_from (result : option Object)
  (stmts : list Statement) (environment : envid) : M (option Object) :=
  match stmts with
  | [] => ret result
  | statement :: rest =>
      let* result := Eval (NodeStatement statement) environment in
      match result with
      | Some o =>
          let rt := Type_ o in
          if String.eqb rt RETURN_VALUE_OBJ || String.eqb rt ERROR_OBJ
          then ret result
          else evalBlockStatement_from result rest environment
      | None => evalBlockStatement_from result rest environment
      end
  end.

Definition evalBlockStatement (block : BlockStatement)
  (environment : envid) : M (option Object) :=
  match block with
  | Block _ stmts => evalBlockStatement_from None stmts environment
  end.

Fixpoint evalExpressions_from (result : list (option Object))
  (exps : list (option Expression)) (env : envid)
  : M (list (option Object)) :=
  match exps with
  | [] => ret result
  | e :: rest =>
      let* evaluated := Eval (expr_node e) env in
      let* err := isError evaluated in
      if err then ret [evaluated]
      else evalExpressions_from (result ++ [evaluated])%list rest env
  end.

Definition evalExpressions (exps : list (option Expression)) (env : envid)
  : M (list (option Object)) :=
  evalExpressions_from [] exps env.

Definition evalIfExpression (cond : option Expression)
  (consequence : BlockStatement) (alternative : option BlockStatement)
  (environment : envid) : M (option Object) :=
  let* condition := Eval (expr_node cond) environment in
  let* err := isError condition in
  if err then ret condition
  else if isTruthy condition then
    Eval (NodeStatement (BlockStmt consequence)) environment
  else
    match alternative with
    | Some alt => Eval (NodeStatement (BlockStmt alt)) environment
    | None => ret (Some NULL)
    end.

Definition evalIdentifier (node : Identifier) (env : envid)
  : M (option Object) :=
  let* r := Get fuel env (Value node) in
  match r with
  | None => newError ("identifier not found: " +:+ Value node)
  | Some val => ret val
  end.

Definition applyFunction (fn : option Object) (args : list (option Object))
  : M (option Object) :=
  match fn with
  | Some (Function _ params body fnEnv) =>
      let* extendedEnv := extendedFunctionEnv fnEnv params args in
      let* evaluated := Eval (NodeStatement (BlockStmt body)) extendedEnv in
      ret (unwrapReturnVal evaluated)
  | _ =>
      let* t := TypeOf fn in
      newError ("not a function: " +:+ t)
  end.

Definition Eval_body (node : Node) (environment : envid)
  : M (option Object) :=
  match node with
  | NodeProgram prog => evalProgram (Statements prog) environment
  | NodeStatement (ExpressionStatement _ e) =>
      Eval (expr_node e) environment
  | NodeStatement (BlockStmt b) => evalBlockStatement b environment
  | NodeStatement (ReturnStatement _ v) =>
      let* val := Eval (expr_node v) environment in
      let* err := isError val in
      if err then ret val
      else let* a := alloc in ret (Some (ReturnValue a val))
  | NodeStatement LetStatement_nil => panic
  | NodeStatement (LetStatement _ name v) =>
      let* val := Eval (expr_node v) environment in
      let* err := isError val in
      if err then ret val
      else
        let* _ := Set_ environment (Value name) val in
        ret None
  | NodeExpression (PrefixExpression _ operator rhs) =>
      let* r := Eval (expr_node rhs) environment in
      let* err := isError r in
      if err then ret r else evalPrefixExpression operator r
  | NodeExpression (InfixExpression _ lhs operator rhs) =>
      let* a := Eval (expr_node lhs) environment in
      let* err := isError a in
      if err then ret a
      else
        let* b := Eval (expr_node rhs) environment in
        let* err := isError b in
        if err then ret b else evalInfixExpression operator a b
  | NodeExpression (IfExpression _ cond consequence alternative) =>
      evalIfExpression cond consequence alternative environment
  | NodeExpression (IntegerLiteral _ v) => newInteger v
  | NodeExpression (ast.Boolean _ v) =>
      ret (Some (nativeBoolToBooleanObject v))
  | NodeExpression (Ident i) => evalIdentifier i environment
  | NodeExpression (FunctionLiteral _ params body) =>
      let* a := alloc in ret (Some (Function a params body environment))
  | NodeExpression (CallExpression _ fn arguments) =>
      let* function := Eval (expr_node fn) environment in
      let* err := isError function in
      if err then ret function
      else
        let* args := evalExpressions arguments environment in
        match args with
        | [a] =>
            let* err := isError a in
            if err then ret a else applyFunction function args
        | _ => applyFunction function args
        end
  | NodeNil => ret None
  end.

End Eval.

Fixpoint Eval (n : nat) (node : Node) (environment : envid)
  : M (option Object) :=
  match n with
  | 0 => fun _ => OutOfFuel
  | S n' => Eval_body n' (Eval n') node environment
  end.

(** One line of the [eval] command on a new environment: lex, parse,
    evaluate; the result is the object and what [Inspect] prints. *)
Definition run (n : nat) (src : string) : Outcome (option Object) :=
  match parser.parse n src with
  | None => OutOfFuel
  | Some (program, _) =>
      match (let* env := NewEnvironment in
             Eval n (NodeProgram program) env) init with
      | Ok (r, _) => Ok r
      | Panic => Panic
      | OutOfFuel => OutOfFuel
      end
  end.

Definition inspect (r : Outcome (option Object)) : Outcome (option string) :=
  match r with
  | Ok (Some o) => match Inspect o with
                   | Some s => Ok (Some s)
                   | None => Panic
                   end
  | Ok None => Ok None
  | Panic => Panic
  | OutOfFuel => OutOfFuel
  end.

End evaluator.

(** * Predicates of the properties *)

Import token ast object.

(** The cursor of a lexer that [New] made and that was only moved by
    [readChar]: once it is past the end, the current byte is zero. *)
Definition positioned (lx : lexer.Lexer) : Prop :=
  1 <= lexer.readPosition lx
  /\ (String.length (lexer.input lx) < lexer.readPosition lx ->
      lexer.ch lx = Ascii.zero).

(** The current byte ends the loop of [readString]. *)
Definition closes (lx : lexer.Lexer) : bool :=
  Ascii.eqb (lexer.ch lx) dquote || Ascii.eqb (lexer.ch lx) Ascii.zero.

(** The lexer has read past the end of its input. *)
Definition exhausted (lx : lexer.Lexer) : Prop :=
  lexer.ch lx = Ascii.zero
  /\ String.length (lexer.input lx) <= lexer.readPosition lx.

(** No semicolon is in sight and none will come. *)
Definition semicolon_free (p : parser.Parser) : Prop :=
  exhausted (parser.l p)
  /\ token.Type_ (parser.curToken p) <> SEMICOLON
  /\ token.Type_ (parser.peekToken p) <> SEMICOLON.

(** An object that is not an error. *)
Definition is_value (v : option Object) : Prop :=
  exists o, v = Some o /\ object.Type_ o <> ERROR_OBJ.

(** Every [Boolean] and every [Null] inside the object is one of the three
    objects of the package. *)
Fixpoint singletons (o : Object) : bool :=
  match o with
  | object.Boolean a v =>
      Nat.eqb a (address (evaluator.nativeBoolToBooleanObject v))
  | Null a => Nat.eqb a (address evaluator.NULL)
  | ReturnValue _ v =>
      match v with
      | Some v => singletons v
      | None => true
      end
  | Array _ els =>
      forallb (fun e => match e with
                        | Some e => singletons e
                        | None => true
                        end) els
  | _ => true
  end.

Definition singletons_opt (v : option Object) : Prop :=
  match v with
  | Some o => singletons o = true
  | None => True
  end.

Definition heap_singletons (h : Heap) : Prop :=
  Forall (fun env => map_Forall (fun _ v => singletons_opt v) (store env))
    (envs h).

(** [m] keeps the invariant of the heap and returns a result in [P]. *)
Definition preserves {A} (P : A -> Prop) (m : M A) : Prop :=
  forall h a h', heap_singletons h -> m h = Ok (a, h') ->
                 P a /\ heap_singletons h'.

(** The result is not constrained. *)
Definition any {A} (_ : A) : Prop := True.

(** [singletons] on an element of an array, which may be [nil]. *)
Definition element_ok (e : option Object) : bool :=
  match e with
  | Some e => singletons e
  | None => true
  end.

(** What a computation returns, without the heap it leaves. *)
Definition result {A} (o : Outcome (A * Heap)) : Outcome A :=
  match o with
  | Ok (a, _) => Ok a
  | Panic => Panic
  | OutOfFuel => OutOfFuel
  end.

(** Every [outer] pointer leads to an environment that was allocated
    before the one that holds it. *)
Definition chain_ok (h : Heap) : Prop :=
  forall i env o, envs h !! i = Some env -> outer env = Some o -> o < i.

(** The values of a signed 64-bit integer. *)
Definition int64 (z : Z) : Prop :=
  (- 9223372036854775808 <= z < 9223372036854775808)%Z.

(** The heap [h'] is [h] after more work: addresses were only handed out,
    nothing was printed, and every environment of [h] is still there with
    the same outer environment and at least the names it had. *)
Definition extends (h h' : Heap) : Prop :=
  next h <= next h'
  /\ stdout h' = stdout h
  /\ forall (i : nat) env,
       envs h !! i = Some env ->
       exists env',
         envs h' !! i = Some env'
         /\ outer env' = outer env
         /\ dom (store env) ⊆ dom (store env').

(** [m] only ever extends the heap. *)
Definition grows {A} (m : M A) : Prop :=
  forall h a h', m h = Ok (a, h') -> extends h h'.

(** The lexer after [k] calls of [NextToken]. *)
Fixpoint advance (k : nat) (lx : lexer.Lexer) : lexer.Lexer :=
  match k with
  | 0 => lx
  | S k' => advance k' (snd (lexer.NextToken lx))
  end.

(** The current byte is the byte of the input at the current position,
    and the read position is the one after it. *)
Definition synced (lx : lexer.Lexer) : Prop :=
  lexer.readPosition lx = S (lexer.position lx)
  /\ lexer.ch lx = byte_at (lexer.input lx) (lexer.position lx).

(** Every byte of the string satisfies [P]. *)
Fixpoint all_bytes (P : ascii -> bool) (s : string) : bool :=
  match s with
  | EmptyString => true
  | String c r => P c && all_bytes P r
  end.

(** A statement as [parseLetStatement] and [parseReturnStatement] make
    them: a nil pointer, or a statement whose value is absent. *)
Definition valueless (s : Statement) : Prop :=
  match s with
  | LetStatement _ _ v => v = None
  | LetStatement_nil => True
  | ReturnStatement _ v => v = None
  | _ => False
  end.

(** The parser [p'] is [p] after more parsing: the same two tables, and
    the errors of [p] followed by the new ones. *)
Definition parsed_on (p p' : parser.Parser) : Prop :=
  parser.prefixParseFns p' = parser.prefixParseFns p
  /\ parser.infixParseFns p' = parser.infixParseFns p
  /\ exists new, parser.errors p' = (parser.errors p ++ new)%list.

(** A tree without a [nil] where [String()] would call a method through
    it: no absent operand, condition, callee or argument, and no nil
    pointer to a let statement. The value of a statement may be absent. *)
Fixpoint complete (e : Expression) : bool :=
  match e with
  | Ident _ | IntegerLiteral _ _ | ast.Boolean _ _ => true
  | PrefixExpression _ _ rhs =>
      match rhs with
      | Some r => complete r
      | None => false
      end
  | InfixExpression _ lhs _ rhs =>
      match lhs, rhs with
      | Some a, Some b => complete a && complete b
      | _, _ => false
      end
  | IfExpression _ cond consequence alt =>
      match cond with
      | Some c => complete c
      | None => false
      end
      && complete_block consequence
      && match alt with
         | Some a => complete_block a
         | None => true
         end
  | FunctionLiteral _ _ body => complete_block body
  | CallExpression _ fn args =>
      match fn with
      | Some f => complete f
      | None => false
      end
      && forallb (fun a => match a with
                           | Some a => complete a
                           | None => false
                           end) args
  end
with complete_statement (s : Statement) : bool :=
  match s with
  | LetStatement _ _ v | ReturnStatement _ v | ExpressionStatement _ v =>
      match v with
      | Some e => complete e
      | None => true
      end
  | LetStatement_nil => false
  | BlockStmt b => complete_block b
  end
with complete_block (b : BlockStatement) : bool :=
  match b with
  | Block _ stmts => forallb complete_statement stmts
  end.

(** The number of errors recorded so far. *)
Definition nerr (p : parser.Parser) : nat := length (parser.errors p).
(** A parse function that recorded no error returned a complete tree. *)
Definition quiet_complete {A} (ok : A -> bool) (f : parser.Parse (option A))
  : Prop :=
  forall p r p',
    f p = Some (r, p') -> nerr p' <= nerr p ->
    exists a, r = Some a /\ ok a = true.

(** * Properties *)

(** ** The loops of the lexer *)

Lemma positioned_New inp : positioned (lexer.New inp).
Proof.
  split; cbn; [lia |]. intros H.
  destruct inp; [reflexivity | cbn in H; lia].
Qed.

Lemma positioned_readChar lx : positioned (lexer.readChar lx).
Proof.
  split; cbn; [lia |]. intros H.
  destruct (Nat.leb_spec (String.length (lexer.input lx)) (lexer.readPosition lx));
    [reflexivity | lia].
Qed.

Lemma readWhile_input cond n lx :
  lexer.input (lexer.readWhile cond n lx) = lexer.input lx.
Proof.
  revert lx. induction n as [| n IH]; intros lx; cbn; [reflexivity |].
  destruct (cond (lexer.ch lx)); [| reflexivity]. now rewrite IH.
Qed.

Lemma positioned_readWhile cond n lx :
  positioned lx -> positioned (lexer.readWhile cond n lx).
Proof.
  revert lx. induction n as [| n IH]; intros lx H; cbn; [exact H |].
  destruct (cond (lexer.ch lx)); [| exact H].
  apply IH, positioned_readChar.
Qed.

(** The fuel that the lexer gives its loops is enough: the loop ends
    because its condition fails. *)
Lemma readWhile_stops cond n lx :
  cond Ascii.zero = false ->
  positioned lx ->
  S (String.length (lexer.input lx)) - lexer.readPosition lx < n ->
  cond (lexer.ch (lexer.readWhile cond n lx)) = false.
Proof.
  intros Hz. revert lx. induction n as [| n IH]; intros lx Hp Hn; [lia |].
  cbn. destruct (cond (lexer.ch lx)) eqn:Hc; [| exact Hc].
  apply IH; [apply positioned_readChar |]. cbn.
  destruct Hp as [_ Hp].
  destruct (Nat.lt_ge_cases (String.length (lexer.input lx))
              (lexer.readPosition lx)) as [Hlt | Hge]; [| lia].
  rewrite (Hp Hlt), Hz in Hc. discriminate.
Qed.

Lemma skipWhitespace_stops lx :
  positioned lx ->
  lexer.isWhitespace (lexer.ch (lexer.skipWhitespace lx)) = false.
Proof.
  intros Hp. apply readWhile_stops; [reflexivity | exact Hp |].
  unfold lexer.bound. destruct Hp. lia.
Qed.

Lemma readStringLoop_0 lx : lexer.readStringLoop 0 lx = lexer.readChar lx.
Proof. unfold lexer.readStringLoop. now destruct (_ || _). Qed.

Lemma readStringLoop_S n lx :
  lexer.readStringLoop (S n) lx
  = if closes (lexer.readChar lx) then lexer.readChar lx
    else lexer.readStringLoop n (lexer.readChar lx).
Proof. reflexivity. Qed.

Lemma closes_past_end lx :
  String.length (lexer.input lx) <= lexer.readPosition lx ->
  closes (lexer.readChar lx) = true.
Proof.
  intros H. unfold closes, lexer.readChar. cbn.
  now rewrite (proj2 (Nat.leb_le _ _) H).
Qed.

Lemma readStringLoop_stops n lx :
  S (String.length (lexer.input lx)) - lexer.readPosition lx <= n ->
  closes (lexer.readStringLoop n lx) = true.
Proof.
  revert lx. induction n as [| n IH]; intros lx Hn.
  - rewrite readStringLoop_0. apply closes_past_end. lia.
  - rewrite readStringLoop_S.
    destruct (closes (lexer.readChar lx)) eqn:E; [exact E |].
    apply IH. cbn. lia.
Qed.

Lemma positioned_NextToken lx :
  positioned lx -> positioned (snd (lexer.NextToken lx)).
Proof.
  intros Hp. unfold lexer.NextToken.
  pose proof (positioned_readWhile lexer.isWhitespace (lexer.bound lx) lx Hp)
    as Hs.
  fold (lexer.skipWhitespace lx) in Hs |- *.
  set (l := lexer.skipWhitespace lx) in *.
  unfold lexer.readString, lexer.readIdentifier, lexer.readNumber.
  repeat match goal with
         | |- positioned (snd (if ?c then _ else _)) => destruct c
         end;
    cbn [snd]; try apply positioned_readChar;
    now apply positioned_readWhile.
Qed.

(** ** Let statements in the parser *)

(** Whatever follows the [=], [parseLetStatement] produces a statement
    without a value. *)
Lemma parseLetStatement_value_absent fuel p s p' :
  parser.parseLetStatement fuel p = Some (s, p') ->
  s = LetStatement_nil \/ exists tok name, s = LetStatement tok name None.
Proof.
  unfold parser.parseLetStatement.
  destruct (parser.expectPeek IDENT p) as [[] p1]; cbn [negb];
    [| intros [= <- _]; now left].
  destruct (parser.expectPeek ASSIGN p1) as [[] p2]; cbn [negb];
    [| intros [= <- _]; now left].
  destruct (parser.skipToSemicolon fuel p2); [| discriminate].
  intros [= <- _]. right. eauto.
Qed.

(** C1 (fails on the code). On [let x = 5 * 2;] the parser returns a
    [LetStatement] whose value is absent: the tokens of the expression are
    skipped up to the semicolon and never parsed. *)
Theorem parseLetStatement_skips_expression :
  parser.parse 100 "let x = 5 * 2;"
  = Some (mkProgram
            [LetStatement (mkToken LET "let")
               (mkIdentifier (mkToken IDENT "x") "x") None],
          []).
Proof. vm_compute. reflexivity. Qed.



(** ** The loop that skips to the semicolon *)

Lemma NextToken_exhausted lx :
  exhausted lx ->
  lexer.NextToken lx = (mkToken EOF EmptyString, lexer.readChar lx)
  /\ exhausted (lexer.readChar lx).
Proof.
  destruct lx as [inp pos rp c]. intros [Hc Hlen]. cbn in Hc, Hlen. subst c.
  assert (Hleb : Nat.leb (String.length inp) rp = true)
    by now apply Nat.leb_le.
  split.
  - unfold lexer.NextToken, lexer.skipWhitespace, lexer.bound. cbn.
    reflexivity.
  - split; cbn.
    + now rewrite Hleb.
    + lia.
Qed.

Lemma nextToken_semicolon_free p :
  semicolon_free p -> semicolon_free (parser.nextToken p).
Proof.
  intros (Hl & _ & Hpeek). unfold parser.nextToken.
  destruct (NextToken_exhausted _ Hl) as [-> Hl'].
  repeat split; cbn; try assumption; try apply Hl'. discriminate.
Qed.

Lemma skipToSemicolon_diverges n p :
  semicolon_free p -> parser.skipToSemicolon n p = None.
Proof.
  revert p. induction n as [| n IH]; intros p Hp;
    pose proof Hp as (_ & Hcur & _); cbn;
    unfold parser.curTokenIs; rewrite bool_decide_eq_false_2 by assumption.
  - reflexivity.
  - apply IH, nextToken_semicolon_free, Hp.
Qed.

(** C3 (fails on the code). On the input [let x = 5], which has no
    semicolon, [ParseProgram] does not return, whatever the fuel: the loop
    of [parseLetStatement] asks the exhausted lexer for tokens for ever. *)
Theorem ParseProgram_diverges_without_semicolon (n : nat) :
  parser.ParseProgram n (parser.New (lexer.New "let x = 5")) = None.
Proof.
  set (p0 := parser.New (lexer.New "let x = 5")).
  assert (Hcur : token.Type_ (parser.curToken p0) = LET) by (vm_compute; reflexivity).
  pose (p1 := parser.nextToken p0). pose (p2 := parser.nextToken p1).
  assert (H1 : parser.expectPeek IDENT p0 = (true, p1))
    by (vm_compute; reflexivity).
  assert (H2 : parser.expectPeek ASSIGN p1 = (true, p2))
    by (vm_compute; reflexivity).
  assert (Hfree : semicolon_free p2).
  { unfold semicolon_free, exhausted. split; [split | split].
    - vm_compute. reflexivity.
    - apply Nat.leb_le. vm_compute. reflexivity.
    - vm_compute. discriminate.
    - vm_compute. discriminate. }
  assert (Hlet : forall k, parser.parseLetStatement k p0 = None).
  { intros k. unfold parser.parseLetStatement. rewrite H1. cbn [negb].
    rewrite H2. cbn [negb]. now rewrite skipToSemicolon_diverges. }
  assert (Hstmt : forall k, parser.parseStatement k p0 = None).
  { intros [| k]; [reflexivity |]. cbn [parser.parseStatement].
    unfold parser.parseStatement_body. rewrite Hcur, Hlet. reflexivity. }
  unfold parser.ParseProgram.
  destruct n as [| n]; cbn [parser.parseStatements];
    rewrite Hcur; cbn [bool_decide decide_rel]; [reflexivity |].
  rewrite bool_decide_eq_false_2 by discriminate.
  now rewrite Hstmt.
Qed.

(** ** Programs that make the evaluator panic *)

(** C2 (fails on the code). The parser that [New] returns has no prefix
    parse function for [FUNCTION] and no infix parse function for [LPAREN],
    and evaluating [let id = fn(x) { x; }; id(5);] on a new environment
    panics instead of giving the integer 5. *)
Theorem identity_function_scenario_panics :
  let src := "let id = fn(x) { x; }; id(5);" in
  parser.prefixParseFns (parser.New (lexer.New src)) FUNCTION = None
  /\ parser.infixParseFns (parser.New (lexer.New src)) LPAREN = None
  /\ option_map snd (parser.parse 200 src)
     = Some ["no prefix parse function for } found"]
  /\ evaluator.run 200 src = Panic.
Proof. vm_compute. repeat split; reflexivity. Qed.

(** C4 (fails on the code). The programs that the parser returns for
    [let x = 5;] and for [return 5;] make [Eval] panic: the statement has
    no value, evaluating the absent expression gives [nil], and [isError]
    calls [Type()] on it. *)
Theorem Eval_panics_on_parsed_let :
  evaluator.run 200 "let x = 5;" = Panic
  /\ evaluator.run 200 "return 5;" = Panic.
Proof. vm_compute. split; reflexivity. Qed.

(** C5 (fails on the code). [first] of an empty array and of an empty
    string panics, where [last] returns [NULL]. *)
Theorem first_of_empty_panics (a : addr) (h : Heap) :
  evaluator.builtin_first [Some (Array a [])] h = Panic
  /\ evaluator.builtin_first [Some (String_ a EmptyString)] h = Panic
  /\ evaluator.builtin_last [Some (Array a [])] h = Ok (Some evaluator.NULL, h).
Proof. repeat split. Qed.

(** C6 (fails on the code). [applyFunction] on a [Builtin] never calls the
    host function: the result is the error [not a function: BUILTIN]. For
    [len] called without arguments the host function would have returned
    another error. *)
Theorem applyFunction_rejects_builtin
  (Ev : Node -> envid -> M (option Object)) (a : addr) (fn : BuiltinFunction)
  (args : list (option Object)) (h : Heap) :
  evaluator.applyFunction Ev (Some (Builtin a fn)) args h
  = Ok (Some (Error (next h) "not a function: BUILTIN"),
        mkHeap (S (next h)) (envs h) (stdout h))
  /\ (let call :=
        CallExpression (mkToken LPAREN "(")
          (Some (Ident (mkIdentifier (mkToken IDENT "len") "len"))) [] in
      (let* env := NewEnvironment in
       let* _ := Set_ env "len" (evaluator.builtins "len") in
       evaluator.Eval 10 (NodeExpression call) env) evaluator.init
      = Ok (Some (Error 9 "not a function: BUILTIN"),
            mkHeap 10
              [mkEnvironment (<["len" := Some (Builtin 3 fn_len)]> ∅) None] [])
      /\ evaluator.call_builtin fn_len [] evaluator.init
         = Ok (Some (Error 9 "wrong number of arguments. got=0, want=1"),
               mkHeap 10 [] [])).
Proof. split; [reflexivity |]. vm_compute. split; reflexivity. Qed.

(** ** Errors of the evaluator *)

Lemma isError_Some o h :
  evaluator.isError (Some o) h = Ok (String.eqb (object.Type_ o) ERROR_OBJ, h).
Proof. reflexivity. Qed.

Lemma isError_value v h : is_value v -> evaluator.isError v h = Ok (false, h).
Proof.
  intros (o & -> & Ho). rewrite isError_Some.
  now apply String.eqb_neq in Ho as ->.
Qed.

Lemma isError_Error a msg h :
  evaluator.isError (Some (Error a msg)) h = Ok (true, h).
Proof. reflexivity. Qed.


(** C8. When the two operands of an infix expression evaluate, one after
    the other, to objects that are not errors and whose types differ, the
    expression evaluates to a new [Error] with the message
    [type mismatch: <lt> <op> <rt>]; and the program [5 + true;] prints as
    [error: type mismatch: INTEGER + BOOLEAN]. *)
Theorem type_mismatch n tok lhs op rhs env h l h1 r h2 :
  evaluator.Eval n (expr_node lhs) env h = Ok (Some l, h1) ->
  object.Type_ l <> ERROR_OBJ ->
  evaluator.Eval n (expr_node rhs) env h1 = Ok (Some r, h2) ->
  object.Type_ r <> ERROR_OBJ ->
  object.Type_ l <> object.Type_ r ->
  evaluator.Eval (S n) (NodeExpression (InfixExpression tok lhs op rhs)) env h
  = Ok (Some (Error (next h2)
                ("type mismatch: " +:+ object.Type_ l +:+ " " +:+ op +:+ " "
                 +:+ object.Type_ r)),
        mkHeap (S (next h2)) (envs h2) (stdout h2))
  /\ evaluator.inspect (evaluator.run 200 "5 + true;")
     = Ok (Some "error: type mismatch: INTEGER + BOOLEAN").
Proof.
  intros Hl Hlt Hr Hrt Hne. split; [| vm_compute; reflexivity].
  cbn [evaluator.Eval]. unfold evaluator.Eval_body, bind.
  rewrite Hl, isError_value by (eexists; eauto).
  rewrite Hr, isError_value by (eexists; eauto).
  unfold evaluator.evalInfixExpression, bind. cbn [evaluator.TypeOf ret].
  apply String.eqb_neq in Hne as ->. reflexivity.
Qed.

Lemma type_mismatch_witness :
  evaluator.Eval 2 (NodeExpression (InfixExpression (mkToken PLUS "+")
       (Some (IntegerLiteral (mkToken INT "5") 5)) "+"
       (Some (ast.Boolean (mkToken TRUE "true") true)))) 0
     (mkHeap 9 [mkEnvironment ∅ None] [])
  = Ok (Some (Error 10 "type mismatch: INTEGER + BOOLEAN"),
        mkHeap 11 [mkEnvironment ∅ None] []).
Proof.
  refine (proj1 (type_mismatch 1 (mkToken PLUS "+")
           (Some (IntegerLiteral (mkToken INT "5") 5)) "+"
           (Some (ast.Boolean (mkToken TRUE "true") true)) 0
           (mkHeap 9 [mkEnvironment ∅ None] []) (Integer 9 5)
           (mkHeap 10 [mkEnvironment ∅ None] []) evaluator.TRUE
           (mkHeap 10 [mkEnvironment ∅ None] []) _ _ _ _ _)).
  - reflexivity.
  - vm_compute. discriminate.
  - reflexivity.
  - vm_compute. discriminate.
  - vm_compute. discriminate.
Defined.

(** ** Errors cut the evaluation of a node short *)

(** The arguments before the first one that gives an error do not matter,
    nor do the ones after it. *)
Lemma evalExpressions_from_error Ev env e a msg h h' post :
  Ev (expr_node e) env h = Ok (Some (Error a msg), h') ->
  forall pre acc vs h1,
    evaluator.evalExpressions_from Ev acc pre env h1 = Ok (vs, h) ->
    Forall is_value vs ->
    evaluator.evalExpressions_from Ev acc (pre ++ e :: post)%list env h1
    = Ok ([Some (Error a msg)], h').
Proof.
  intros He. induction pre as [| x pre IH]; intros acc vs h1 Hpre Hvs.
  - injection Hpre as <- <-. cbn. unfold bind. now rewrite He.
  - cbn in Hpre |- *. unfold bind in Hpre |- *.
    destruct (Ev (expr_node x) env h1) as [[[o |] hx] | |]; try discriminate.
    rewrite isError_Some in Hpre |- *.
    destruct (String.eqb (object.Type_ o) ERROR_OBJ) eqn:Ho.
    + injection Hpre as <- <-. apply Forall_inv in Hvs as (o' & [= <-] & Hne).
      now apply String.eqb_eq in Ho.
    + eapply IH; eassumption.
Qed.

(** C9. Let the sub-expression [e] evaluate to an [Error]. Then a prefix
    expression on [e], an infix expression with [e] on the left (whatever
    is on the right), an infix expression with [e] on the right of an
    operand that gave a value, a call of [e] (whatever the arguments), and
    a call with [e] among the arguments, after a callee and arguments that
    gave values (whatever the arguments after [e]), all evaluate to that
    same [Error], in the heap that the evaluation of [e] left. *)
Theorem error_short_circuit n env h (e : option Expression) a msg h' :
  evaluator.Eval n (expr_node e) env h = Ok (Some (Error a msg), h') ->
  (forall tok op,
      evaluator.Eval (S n) (NodeExpression (PrefixExpression tok op e)) env h
      = Ok (Some (Error a msg), h'))
  /\ (forall tok op rhs,
         evaluator.Eval (S n) (NodeExpression (InfixExpression tok e op rhs))
           env h
         = Ok (Some (Error a msg), h'))
  /\ (forall tok op lhs l h0,
         evaluator.Eval n (expr_node lhs) env h0 = Ok (l, h) ->
         is_value l ->
         evaluator.Eval (S n) (NodeExpression (InfixExpression tok lhs op e))
           env h0
         = Ok (Some (Error a msg), h'))
  /\ (forall tok args,
         evaluator.Eval (S n) (NodeExpression (CallExpression tok e args))
           env h
         = Ok (Some (Error a msg), h'))
  /\ (forall tok fn f pre vs post h0 h1,
         evaluator.Eval n (expr_node fn) env h0 = Ok (f, h1) ->
         is_value f ->
         evaluator.evalExpressions (evaluator.Eval n) pre env h1 = Ok (vs, h) ->
         Forall is_value vs ->
         evaluator.Eval (S n)
           (NodeExpression (CallExpression tok fn (pre ++ e :: post)%list))
           env h0
         = Ok (Some (Error a msg), h')).
Proof.
  intros He. repeat split; intros; cbn [evaluator.Eval];
    unfold evaluator.Eval_body, bind.
  - now rewrite He.
  - now rewrite He.
  - rewrite H, isError_value by assumption. now rewrite He.
  - now rewrite He.
  - rewrite H, isError_value by assumption.
    unfold evaluator.evalExpressions in *.
    now rewrite (evalExpressions_from_error _ _ _ _ _ _ _ post He pre [] vs h1).
Qed.

Lemma error_short_circuit_witness :
  evaluator.Eval 2
    (NodeExpression
       (InfixExpression (mkToken MINUS "-")
          (Some (IntegerLiteral (mkToken INT "5") 5)) "-"
          (Some (Ident (mkIdentifier (mkToken IDENT "foobar") "foobar")))))
    0 (mkHeap 9 [mkEnvironment ∅ None] [])
  = Ok (Some (Error 10 "identifier not found: foobar"),
        mkHeap 11 [mkEnvironment ∅ None] [])
  /\ evaluator.Eval 2
       (NodeExpression
          (CallExpression (mkToken LPAREN "(")
             (Some (IntegerLiteral (mkToken INT "5") 5))
             [Some (IntegerLiteral (mkToken INT "5") 5);
              Some (Ident (mkIdentifier (mkToken IDENT "foobar") "foobar"));
              None]))
       0 (mkHeap 9 [mkEnvironment ∅ None] [])
     = Ok (Some (Error 11 "identifier not found: foobar"),
           mkHeap 12 [mkEnvironment ∅ None] []).
Proof.
  split.
  - refine (proj1 (proj2 (proj2
      (error_short_circuit 1 0 (mkHeap 10 [mkEnvironment ∅ None] [])
         (Some (Ident (mkIdentifier (mkToken IDENT "foobar") "foobar"))) 10
         "identifier not found: foobar"
         (mkHeap 11 [mkEnvironment ∅ None] []) _)))
      (mkToken MINUS "-") "-" (Some (IntegerLiteral (mkToken INT "5") 5))
      (Some (Integer 9 5)) (mkHeap 9 [mkEnvironment ∅ None] []) _ _).
    + reflexivity.
    + reflexivity.
    + eexists. split; [reflexivity |]. vm_compute. discriminate.
  - refine (proj2 (proj2 (proj2 (proj2
      (error_short_circuit 1 0 (mkHeap 11 [mkEnvironment ∅ None] [])
         (Some (Ident (mkIdentifier (mkToken IDENT "foobar") "foobar"))) 11
         "identifier not found: foobar"
         (mkHeap 12 [mkEnvironment ∅ None] []) _))))
      (mkToken LPAREN "(") (Some (IntegerLiteral (mkToken INT "5") 5))
      (Some (Integer 9 5)) [Some (IntegerLiteral (mkToken INT "5") 5)]
      [Some (Integer 10 5)] [None] (mkHeap 9 [mkEnvironment ∅ None] [])
      (mkHeap 10 [mkEnvironment ∅ None] []) _ _ _ _).
    + reflexivity.
    + reflexivity.
    + eexists. split; [reflexivity |]. vm_compute. discriminate.
    + reflexivity.
    + repeat constructor. eexists. split; [reflexivity |].
      vm_compute. discriminate.
Defined.

(** ** The singletons [TRUE], [FALSE] and [NULL] *)

Section Preservation.

Lemma preserves_ret {A} (P : A -> Prop) a : P a -> preserves P (ret a).
Proof. intros Ha h a' h' Hh [= <- <-]. now split. Qed.

Lemma preserves_panic {A} (P : A -> Prop) : preserves P panic.
Proof. intros h a h' _ [=]. Qed.

Lemma preserves_bind {A B} (Q : A -> Prop) (P : B -> Prop) m k :
  preserves Q m -> (forall a, Q a -> preserves P (k a)) ->
  preserves P (bind m k).
Proof.
  intros Hm Hk h b h' Hh. unfold bind.
  destruct (m h) as [[a h1] | |] eqn:E; try discriminate.
  destruct (Hm _ _ _ Hh E) as [Ha Hh1]. now apply Hk.
Qed.

Lemma preserves_weaken {A} (P Q : A -> Prop) m :
  preserves P m -> (forall a, P a -> Q a) -> preserves Q m.
Proof. intros Hm HPQ h a h' Hh E. destruct (Hm _ _ _ Hh E). auto. Qed.

Lemma preserves_alloc : preserves any alloc.
Proof. intros h a h' Hh [= <- <-]. now split. Qed.

Lemma preserves_TypeOf v : preserves any (evaluator.TypeOf v).
Proof. destruct v; [now apply preserves_ret | apply preserves_panic]. Qed.

Lemma preserves_InspectOf v : preserves any (evaluator.InspectOf v).
Proof.
  destruct v as [o |]; [| apply preserves_panic]. cbn.
  destruct (Inspect o); [now apply preserves_ret | apply preserves_panic].
Qed.


Lemma preserves_newError msg :
  preserves singletons_opt (evaluator.newError msg).
Proof.
  eapply preserves_bind; [apply preserves_alloc |].
  intros. now apply preserves_ret.
Qed.

Lemma preserves_newInteger v :
  preserves singletons_opt (evaluator.newInteger v).
Proof.
  eapply preserves_bind; [apply preserves_alloc |].
  intros. now apply preserves_ret.
Qed.

Lemma preserves_Println s : preserves any (Println s).
Proof. intros h a h' Hh [= <- <-]. now split. Qed.


Lemma preserves_NewEnvironment : preserves any NewEnvironment.
Proof.
  intros h a h' Hh [= <- <-]. split; [exact I |].
  apply Forall_app. split; [exact Hh |].
  constructor; [apply map_Forall_empty | constructor].
Qed.










(** The functions that call back into [Eval]. *)
Variable fuel : nat.
Variable Ev : Node -> envid -> M (option Object).
Hypothesis Ev_preserves : forall node env, preserves singletons_opt (Ev node env).






End Preservation.


(** The host functions keep the invariant as well. *)
Lemma element_ok_iff e : element_ok e = true <-> singletons_opt e.
Proof. now destruct e. Qed.

Lemma forallb_element_ok els :
  forallb element_ok els = true <-> Forall singletons_opt els.
Proof.
  rewrite forallb_forall, Forall_forall. split; intros H e He.
  - apply element_ok_iff, H. now apply list_elem_of_In.
  - apply element_ok_iff, H. now apply list_elem_of_In.
Qed.

Lemma preserves_notSupported name arg :
  preserves singletons_opt (evaluator.notSupported name arg).
Proof.
  eapply preserves_bind; [apply preserves_TypeOf |]. intros.
  apply preserves_newError.
Qed.

Lemma preserves_builtin_puts args :
  preserves singletons_opt (evaluator.builtin_puts args).
Proof.
  induction args as [| arg rest IH]; cbn; [now apply preserves_ret |].
  eapply preserves_bind; [apply preserves_InspectOf |]. intros s _.
  eapply preserves_bind; [apply preserves_Println |]. intros _ _. exact IH.
Qed.

Lemma preserves_call_builtin fn args :
  Forall singletons_opt args ->
  preserves singletons_opt (evaluator.call_builtin fn args).
Proof.
  intros Hargs.
  assert (Harity : forall n, preserves singletons_opt (evaluator.wrongArity n))
    by (intros; apply preserves_newError).
  destruct fn; cbn; try apply preserves_builtin_puts.
  1-4: unfold evaluator.builtin_len, evaluator.builtin_first,
         evaluator.builtin_last, evaluator.builtin_rest;
       destruct args as [| arg [| ? ?]]; try apply Harity;
       apply Forall_inv in Hargs;
       destruct arg as [[| | | | | | a v | a els |] |];
       try apply preserves_notSupported.
  - apply preserves_newInteger.
  - apply preserves_newInteger.
  - destruct (String.get 0 v); [| apply preserves_panic].
    eapply preserves_bind; [apply preserves_alloc |]. intros.
    now apply preserves_ret.
  - destruct (els !! 0) as [e |] eqn:E; [| apply preserves_panic].
    apply preserves_ret. change (forallb element_ok els = true) in Hargs.
    apply forallb_element_ok in Hargs.
    exact (proj1 (Forall_lookup _ _) Hargs _ _ E).
  - destruct (Nat.eqb _ _); [now apply preserves_ret |].
    eapply preserves_bind; [apply preserves_alloc |]. intros.
    now apply preserves_ret.
  - destruct (Nat.eqb _ _); [now apply preserves_ret |].
    destruct (els !! _) as [e |] eqn:E; [| apply preserves_panic].
    apply preserves_ret. change (forallb element_ok els = true) in Hargs.
    apply forallb_element_ok in Hargs.
    exact (proj1 (Forall_lookup _ _) Hargs _ _ E).
  - destruct (Nat.eqb _ _); [now apply preserves_ret |].
    eapply preserves_bind; [apply preserves_alloc |]. intros.
    now apply preserves_ret.
  - destruct (Nat.eqb _ _); [now apply preserves_ret |].
    eapply preserves_bind; [apply preserves_alloc |]. intros.
    apply preserves_ret. change (forallb element_ok els = true) in Hargs.
    apply forallb_element_ok in Hargs. cbn.
    apply forallb_element_ok. now apply Forall_drop.
  - unfold evaluator.builtin_push.
    destruct (Nat.ltb _ _); [apply preserves_newError |].
    destruct args as [| [[| | | | | | | a els |] |] more];
      try now apply preserves_ret.
    eapply preserves_bind; [apply preserves_alloc |]. intros.
    apply preserves_ret. cbn. apply forallb_element_ok.
    apply Forall_cons_1 in Hargs as [Harr Hmore]. change (forallb element_ok els = true) in Harr.
    apply forallb_element_ok in Harr.
    apply Forall_app. now split.
Qed.



(** * Further properties of the code *)

(** ** Environments *)

Lemma Set_Ok e name v h env :
  envs h !! e = Some env ->
  Set_ e name v h
  = Ok (v, mkHeap (next h)
             (<[e := mkEnvironment (<[name := v]> (store env)) (outer env)]>
                (envs h))
             (stdout h)).
Proof. intros E. unfold Set_. now rewrite E. Qed.

(** X1. A value written with [Set] is the one [Get] finds under that name
    in the same environment, whatever the fuel and whatever the outer
    environments hold. *)
Theorem Set_then_Get n e name v h :
  e < length (envs h) ->
  exists h1, Set_ e name v h = Ok (v, h1)
             /\ Get n e name h1 = Ok (Some v, h1).
Proof.
  unfold envid in *. intros He. destruct (lookup_lt_is_Some_2 _ _ He) as [env E].
  rewrite (Set_Ok _ _ _ _ _ E). eexists. split; [reflexivity |].
  destruct n; cbn; rewrite list_lookup_insert_eq by exact He; cbn;
    now rewrite lookup_insert_eq.
Qed.

Lemma Set_then_Get_witness :
  exists h1,
    Set_ 0 "x" (Some (Integer 9 5)) (mkHeap 10 [mkEnvironment ∅ None] [])
    = Ok (Some (Integer 9 5), h1)
    /\ Get 0 0 "x" h1 = Ok (Some (Some (Integer 9 5)), h1).
Proof.
  apply (Set_then_Get 0 0 "x" (Some (Integer 9 5))
           (mkHeap 10 [mkEnvironment ∅ None] [])).
  cbn. lia.
Defined.

(** X2. Writing a name leaves every other name as it was: a lookup of
    another name, from any environment, gives what it gave before. *)
Theorem Set_other_name n e name v h r h1 name' e' :
  name <> name' ->
  Set_ e name v h = Ok (r, h1) ->
  result (Get n e' name' h1) = result (Get n e' name' h).
Proof.
  intros Hne HS. unfold Set_ in HS. unfold envid in *.
  destruct (envs h !! e) as [env |] eqn:E; [| discriminate].
  injection HS as <- <-.
  revert e'. induction n as [| n IH]; intros e'; cbn; unfold envid in *;
    (destruct (decide (e' = e)) as [-> | Hee];
     [ rewrite list_lookup_insert_eq by (now apply lookup_lt_Some in E);
       rewrite E; cbn; rewrite lookup_insert_ne by exact Hne
     | rewrite list_lookup_insert_ne by congruence;
       destruct (envs h !! e') as [env' |]; [| reflexivity] ]).
  - destruct (store env !! name'), (outer env); reflexivity.
  - destruct (store env' !! name'), (outer env'); reflexivity.
  - destruct (store env !! name'), (outer env); try reflexivity. apply IH.
  - destruct (store env' !! name'), (outer env'); try reflexivity. apply IH.
Qed.

Lemma Set_other_name_witness :
  result (Get 1 0 "y"
            (mkHeap 10
               [mkEnvironment (<["x" := Some (Integer 9 5)]> ∅) None] []))
  = result (Get 1 0 "y" (mkHeap 10 [mkEnvironment ∅ None] [])).
Proof.
  apply (Set_other_name 1 0 "x" (Some (Integer 9 5))
           (mkHeap 10 [mkEnvironment ∅ None] []) (Some (Integer 9 5))).
  - discriminate.
  - reflexivity.
Defined.

(** X3. Writing into an environment is invisible from the environments
    allocated before it, so a binding made in the environment of a call
    shadows a name without changing it in any enclosing scope. *)
Theorem Set_invisible_from_older n e name v h r h1 name' e' :
  chain_ok h ->
  Set_ e name v h = Ok (r, h1) ->
  e' < e ->
  result (Get n e' name' h1) = result (Get n e' name' h).
Proof.
  intros Hc HS. unfold Set_ in HS. unfold envid in *.
  destruct (envs h !! e) as [env |] eqn:E; [| discriminate].
  injection HS as <- <-.
  revert e'. induction n as [| n IH]; intros e' Hlt; cbn; unfold envid in *;
    rewrite list_lookup_insert_ne by lia;
    destruct (envs h !! e') as [env' |] eqn:E'; try reflexivity;
    destruct (store env' !! name'); try reflexivity;
    destruct (outer env') as [o |] eqn:Eo; try reflexivity.
  apply IH. specialize (Hc _ _ _ E' Eo). lia.
Qed.

Lemma Set_invisible_from_older_witness :
  result (Get 1 0 "x"
            (mkHeap 10
               [mkEnvironment ∅ None;
                mkEnvironment (<["x" := Some (Integer 9 5)]> ∅) (Some 0)] []))
  = result (Get 1 0 "x"
              (mkHeap 10 [mkEnvironment ∅ None; mkEnvironment ∅ (Some 0)] [])).
Proof.
  apply (Set_invisible_from_older 1 1 "x" (Some (Integer 9 5))
           (mkHeap 10 [mkEnvironment ∅ None; mkEnvironment ∅ (Some 0)] [])
           (Some (Integer 9 5))).
  - intros [| [| i]] env o; cbn; intros [= <-]; cbn; intros [= <-]. lia.
  - reflexivity.
  - lia.
Defined.

(** X4. On a heap whose [outer] pointers lead to older environments, a
    lookup from an allocated environment returns: it neither panics nor
    needs more fuel than the index of the environment, and it leaves the
    heap as it was. *)
Theorem Get_returns n e name h :
  chain_ok h -> e < length (envs h) -> e <= n ->
  exists r, Get n e name h = Ok (r, h).
Proof.
  unfold envid in *. intros Hc. revert e. induction n as [| n IH]; intros e He Hn;
    destruct (lookup_lt_is_Some_2 _ _ He) as [env E]; cbn;
    unfold envid in *; rewrite E;
    destruct (store env !! name); eauto;
    destruct (outer env) as [o |] eqn:Eo; eauto;
    specialize (Hc _ _ _ E Eo).
  - lia.
  - apply IH; lia.
Qed.

Lemma Get_returns_witness :
  exists r,
    Get 1 1 "x" (mkHeap 10 [mkEnvironment ∅ None; mkEnvironment ∅ (Some 0)] [])
    = Ok (r, mkHeap 10 [mkEnvironment ∅ None; mkEnvironment ∅ (Some 0)] []).
Proof.
  apply Get_returns.
  - intros [| [| i]] env o; cbn; intros [= <-]; cbn; intros [= <-]. lia.
  - cbn. lia.
  - lia.
Defined.

(** ** Operators of the evaluator *)


Lemma wrap64_exact z : int64 z -> evaluator.wrap64 z = z.
Proof.
  unfold int64, evaluator.wrap64. intros H.
  rewrite Z.mod_small by lia. lia.
Qed.



(** X6. Without overflow the four arithmetic operators compute the exact
    sum, difference, product and quotient truncated toward zero. *)
Theorem integer_infix_exact a x b y h :
  let int v := Ok (Some (Integer (next h) v),
                   mkHeap (S (next h)) (envs h) (stdout h)) in
  let eval op :=
    evaluator.evalIntegerInfixExpression op (Some (Integer a x))
      (Some (Integer b y)) h in
  (int64 (x + y) -> eval "+" = int (x + y)%Z)
  /\ (int64 (x - y) -> eval "-" = int (x - y)%Z)
  /\ (int64 (x * y) -> eval "*" = int (x * y)%Z)
  /\ (y <> 0%Z -> int64 (Z.quot x y) -> eval "/" = int (Z.quot x y)).
Proof.
  cbn. repeat split; intros.
  - now rewrite wrap64_exact.
  - now rewrite wrap64_exact.
  - now rewrite wrap64_exact.
  - apply Z.eqb_neq in H as ->. now rewrite wrap64_exact.
Qed.

Lemma integer_infix_exact_witness :
  evaluator.evalIntegerInfixExpression "/" (Some (Integer 9 (-7)))
    (Some (Integer 10 2)) evaluator.init
  = Ok (Some (Integer 9 (-3)), mkHeap 10 [] []).
Proof.
  refine (proj2 (proj2 (proj2
            (integer_infix_exact 9 (-7) 10 2 evaluator.init))) _ _).
  - discriminate.
  - unfold int64. change (Z.quot (-7) 2) with (-3)%Z. lia.
Defined.

(** X7. Division by zero is not guarded: an infix [/] whose operands
    evaluate to integers, the right one to zero, makes [Eval] panic. *)
Theorem division_by_zero_panics n tok lhs rhs env h a x h1 b h2 :
  evaluator.Eval n (expr_node lhs) env h = Ok (Some (Integer a x), h1) ->
  evaluator.Eval n (expr_node rhs) env h1 = Ok (Some (Integer b 0), h2) ->
  evaluator.Eval (S n) (NodeExpression (InfixExpression tok lhs "/" rhs)) env h
  = Panic.
Proof.
  intros Hl Hr. cbn [evaluator.Eval]. unfold evaluator.Eval_body, bind.
  rewrite Hl. cbn. rewrite Hr. reflexivity.
Qed.

Lemma division_by_zero_panics_witness :
  evaluator.Eval 2
    (NodeExpression
       (InfixExpression (mkToken SLASH "/")
          (Some (IntegerLiteral (mkToken INT "1") 1)) "/"
          (Some (IntegerLiteral (mkToken INT "0") 0))))
    0 (mkHeap 9 [mkEnvironment ∅ None] [])
  = Panic.
Proof.
  apply (division_by_zero_panics 1 (mkToken SLASH "/")
           (Some (IntegerLiteral (mkToken INT "1") 1))
           (Some (IntegerLiteral (mkToken INT "0") 0)) 0
           (mkHeap 9 [mkEnvironment ∅ None] []) 9 1
           (mkHeap 10 [mkEnvironment ∅ None] []) 10
           (mkHeap 11 [mkEnvironment ∅ None] [])); reflexivity.
Defined.

Lemma evalBang_twice v :
  evaluator.evalBangOperatorExpression (evaluator.evalBangOperatorExpression v)
  = Some (evaluator.nativeBoolToBooleanObject (evaluator.isTruthy v)).
Proof.
  destruct v as [[a x | a x | a | a x | a x | a p b e | a x | a x | a x] |];
    try reflexivity.
  - destruct a as [| [| a]]; reflexivity.
  - destruct a as [| [| [| a]]]; reflexivity.
Qed.

(** X8. Two [!] in a row turn a value into its truthiness: [!!e] evaluates
    to [TRUE] when the value of [e] is truthy and to [FALSE] when it is
    [NULL] or [FALSE], allocating nothing. *)
Theorem double_bang_is_truthiness n tok tok' e env h v h1 :
  evaluator.Eval n (expr_node e) env h = Ok (v, h1) ->
  is_value v ->
  evaluator.Eval (S (S n))
    (NodeExpression
       (PrefixExpression tok "!" (Some (PrefixExpression tok' "!" e))))
    env h
  = Ok (Some (evaluator.nativeBoolToBooleanObject (evaluator.isTruthy v)), h1).
Proof.
  intros He Hv.
  assert (Hin : evaluator.Eval (S n)
                  (NodeExpression (PrefixExpression tok' "!" e)) env h
                = Ok (evaluator.evalBangOperatorExpression v, h1)).
  { cbn [evaluator.Eval]. unfold evaluator.Eval_body, bind.
    rewrite He, isError_value by exact Hv. reflexivity. }
  change (evaluator.Eval (S (S n)) ?node env h)
    with (evaluator.Eval_body (S n) (evaluator.Eval (S n)) node env h).
  unfold evaluator.Eval_body, bind. cbn [expr_node]. rewrite Hin.
  rewrite isError_value.
  - cbn. now rewrite evalBang_twice.
  - unfold evaluator.evalBangOperatorExpression.
    repeat destruct (same _ _); eexists; (split; [reflexivity |]);
      vm_compute; discriminate.
Qed.

Lemma double_bang_is_truthiness_witness :
  evaluator.Eval 3
    (NodeExpression
       (PrefixExpression (mkToken BANG "!") "!"
          (Some (PrefixExpression (mkToken BANG "!") "!"
                   (Some (IntegerLiteral (mkToken INT "0") 0))))))
    0 (mkHeap 9 [mkEnvironment ∅ None] [])
  = Ok (Some evaluator.TRUE, mkHeap 10 [mkEnvironment ∅ None] []).
Proof.
  apply (double_bang_is_truthiness 1 (mkToken BANG "!") (mkToken BANG "!")
           (Some (IntegerLiteral (mkToken INT "0") 0)) 0
           (mkHeap 9 [mkEnvironment ∅ None] []) (Some (Integer 9 0))
           (mkHeap 10 [mkEnvironment ∅ None] [])).
  - reflexivity.
  - eexists. split; [reflexivity |]. vm_compute. discriminate.
Defined.

(** ** Statements and calls *)

Lemma Eval_ReturnStatement n tok e env h v h1 :
  evaluator.Eval n (expr_node e) env h = Ok (v, h1) ->
  is_value v ->
  evaluator.Eval (S n) (NodeStatement (ReturnStatement tok e)) env h
  = Ok (Some (ReturnValue (next h1) v),
        mkHeap (S (next h1)) (envs h1) (stdout h1)).
Proof.
  intros He Hv. cbn [evaluator.Eval]. unfold evaluator.Eval_body, bind.
  now rewrite He, isError_value by exact Hv.
Qed.

(** X9. A [return] ends the statements around it: a block that starts
    with [return e] evaluates to the [ReturnValue] that wraps the value of
    [e], a program that starts with it evaluates to the value itself, and
    in both the statements after it are not evaluated. *)
Theorem return_ends_statements n tok e rest btok env h v h1 :
  evaluator.Eval n (expr_node e) env h = Ok (v, h1) ->
  is_value v ->
  evaluator.Eval (S (S n))
    (NodeStatement (BlockStmt (Block btok (ReturnStatement tok e :: rest))))
    env h
  = Ok (Some (ReturnValue (next h1) v),
        mkHeap (S (next h1)) (envs h1) (stdout h1))
  /\ evaluator.Eval (S (S n))
       (NodeProgram (mkProgram (ReturnStatement tok e :: rest))) env h
     = Ok (v, mkHeap (S (next h1)) (envs h1) (stdout h1)).
Proof.
  intros He Hv. pose proof (Eval_ReturnStatement n tok e env h v h1 He Hv) as R.
  split.
  - change (evaluator.Eval (S (S n)) ?node env h)
      with (evaluator.Eval_body (S n) (evaluator.Eval (S n)) node env h).
    cbn - [evaluator.Eval]. unfold bind. now rewrite R.
  - change (evaluator.Eval (S (S n)) ?node env h)
      with (evaluator.Eval_body (S n) (evaluator.Eval (S n)) node env h).
    cbn - [evaluator.Eval]. unfold bind. now rewrite R.
Qed.

Lemma return_ends_statements_witness :
  evaluator.Eval 3
    (NodeProgram
       (mkProgram
          [ReturnStatement (mkToken RETURN "return")
             (Some (IntegerLiteral (mkToken INT "1") 1));
           LetStatement_nil]))
    0 (mkHeap 9 [mkEnvironment ∅ None] [])
  = Ok (Some (Integer 9 1), mkHeap 11 [mkEnvironment ∅ None] []).
Proof.
  refine (proj2 (return_ends_statements 1 (mkToken RETURN "return")
                   (Some (IntegerLiteral (mkToken INT "1") 1))
                   [LetStatement_nil] (mkToken LBRACE "{") 0
                   (mkHeap 9 [mkEnvironment ∅ None] []) (Some (Integer 9 1))
                   (mkHeap 10 [mkEnvironment ∅ None] []) _ _)).
  - reflexivity.
  - eexists. split; [reflexivity |]. vm_compute. discriminate.
Defined.

(** X10. An error ends the statements around it as well: a program and a
    block whose first statement is an expression that evaluates to an
    [Error] evaluate to that [Error], in the heap its evaluation left, and
    the statements after it are not evaluated. *)
Theorem error_ends_statements n tok e rest btok env h a msg h1 :
  evaluator.Eval n (expr_node e) env h = Ok (Some (Error a msg), h1) ->
  evaluator.Eval (S (S n))
    (NodeProgram (mkProgram (ExpressionStatement tok e :: rest))) env h
  = Ok (Some (Error a msg), h1)
  /\ evaluator.Eval (S (S n))
       (NodeStatement
          (BlockStmt (Block btok (ExpressionStatement tok e :: rest))))
       env h
     = Ok (Some (Error a msg), h1).
Proof.
  intros He.
  assert (R : evaluator.Eval (S n) (NodeStatement (ExpressionStatement tok e))
                env h
              = Ok (Some (Error a msg), h1)) by exact He.
  split.
  - change (evaluator.Eval (S (S n)) ?node env h)
      with (evaluator.Eval_body (S n) (evaluator.Eval (S n)) node env h).
    cbn - [evaluator.Eval]. unfold bind. now rewrite R.
  - change (evaluator.Eval (S (S n)) ?node env h)
      with (evaluator.Eval_body (S n) (evaluator.Eval (S n)) node env h).
    cbn - [evaluator.Eval]. unfold bind. now rewrite R.
Qed.

Lemma error_ends_statements_witness :
  evaluator.Eval 3
    (NodeProgram
       (mkProgram
          [ExpressionStatement (mkToken IDENT "foobar")
             (Some (Ident (mkIdentifier (mkToken IDENT "foobar") "foobar")));
           LetStatement_nil]))
    0 (mkHeap 9 [mkEnvironment ∅ None] [])
  = Ok (Some (Error 9 "identifier not found: foobar"),
        mkHeap 10 [mkEnvironment ∅ None] []).
Proof.
  refine (proj1 (error_ends_statements 1 (mkToken IDENT "foobar")
                   (Some (Ident (mkIdentifier (mkToken IDENT "foobar")
                                   "foobar")))
                   [LetStatement_nil] (mkToken LBRACE "{") 0
                   (mkHeap 9 [mkEnvironment ∅ None] []) 9
                   "identifier not found: foobar"
                   (mkHeap 10 [mkEnvironment ∅ None] []) _)).
  reflexivity.
Defined.

Lemma bindParameters_too_few e args params :
  forall k h,
    e < length (envs h) -> k <= length args ->
    length args < k + length params ->
    evaluator.bindParameters e k params args h = Panic.
Proof.
  induction params as [| p rest IH]; intros k h He Hk Hlen; cbn in *; [lia |].
  destruct (args !! k) as [arg |] eqn:E; [| reflexivity].
  apply lookup_lt_Some in E. unfold bind, Set_. unfold envid in *.
  destruct (lookup_lt_is_Some_2 _ _ He) as [env Eenv]. rewrite Eenv.
  apply IH; cbn; try lia. now rewrite length_insert.
Qed.

(** X11. A call that supplies fewer arguments than the function has
    parameters panics while the parameters are bound, before the body is
    evaluated. *)
Theorem too_few_arguments_panic Ev a params body fnEnv args h :
  length args < length params ->
  evaluator.applyFunction Ev (Some (Function a params body fnEnv)) args h
  = Panic.
Proof.
  intros Hlen. unfold evaluator.applyFunction, evaluator.extendedFunctionEnv.
  unfold bind, NewExtendedEnvironment.
  rewrite bindParameters_too_few; [reflexivity | | lia | lia].
  cbn. rewrite length_app. cbn. lia.
Qed.

Lemma too_few_arguments_panic_witness :
  evaluator.applyFunction (evaluator.Eval 5)
    (Some (Function 9 [mkIdentifier (mkToken IDENT "x") "x"]
             (Block (mkToken LBRACE "{") []) 0))
    [] (mkHeap 10 [mkEnvironment ∅ None] [])
  = Panic.
Proof.
  apply too_few_arguments_panic. cbn. lia.
Defined.

Lemma bindParameters_extra e params args extra :
  forall k h,
    k + length params <= length args ->
    evaluator.bindParameters e k params (args ++ extra)%list h
    = evaluator.bindParameters e k params args h.
Proof.
  induction params as [| p rest IH]; intros k h Hlen; cbn in *;
    [reflexivity |].
  rewrite lookup_app_l by lia.
  destruct (args !! k) as [arg |]; [| reflexivity].
  unfold bind. destruct (Set_ e (Value p) arg h) as [[? h1] | |];
    try reflexivity.
  apply IH. lia.
Qed.

Lemma bindParameters_last l o params args nx out :
  forall k st h',
    evaluator.bindParameters (length l) k params args
      (mkHeap nx (l ++ [mkEnvironment st o])%list out) = Ok (tt, h') ->
    exists st',
      h' = mkHeap nx (l ++ [mkEnvironment st' o])%list out
      /\ forall name,
           is_Some (st !! name) \/ In name (map Value params) ->
           is_Some (st' !! name).
Proof.
  induction params as [| p rest IH]; intros k st h'; cbn.
  - intros [= <-]. exists st. split; [reflexivity |]. intros name [H | []].
    exact H.
  - destruct (args !! k) as [arg |]; [| discriminate].
    unfold bind, Set_. cbn. unfold envid in *.
    rewrite lookup_app_r by reflexivity. rewrite Nat.sub_diag. cbn.
    rewrite insert_app_r_alt by reflexivity. rewrite Nat.sub_diag. cbn.
    intros H. apply IH in H as (st' & -> & Hst). exists st'.
    split; [reflexivity |]. intros name Hname. apply Hst.
    destruct (decide (name = Value p)) as [-> | Hne].
    + left. rewrite lookup_insert_eq. eauto.
    + destruct Hname as [H | [H | H]]; [| congruence | now right].
      left. now rewrite lookup_insert_ne by congruence.
Qed.

(** X12. Binding the parameters of a call touches one environment only,
    the new one: it gets the index after the existing environments and the
    environment of the function as its outer, every parameter is bound in
    it, the existing environments stay as they are, and no address is
    allocated. *)
Theorem extendedFunctionEnv_is_local fnEnv params args h e h' :
  evaluator.extendedFunctionEnv fnEnv params args h = Ok (e, h') ->
  e = length (envs h)
  /\ exists st,
       h' = mkHeap (next h) (envs h ++ [mkEnvironment st (Some fnEnv)])%list
              (stdout h)
       /\ forall p, In p params -> is_Some (st !! Value p).
Proof.
  unfold evaluator.extendedFunctionEnv, bind, NewExtendedEnvironment.
  destruct (evaluator.bindParameters _ _ _ _ _) as [[[] h1] | |] eqn:E;
    try discriminate.
  intros [= <- <-]. split; [reflexivity |].
  apply bindParameters_last in E as (st & -> & Hst). exists st.
  split; [reflexivity |]. intros p Hp. apply Hst. right. now apply in_map.
Qed.

Lemma extendedFunctionEnv_is_local_witness :
  1 = length (envs (mkHeap 10 [mkEnvironment ∅ None] []))
  /\ exists st,
       mkHeap 10
         [mkEnvironment ∅ None;
          mkEnvironment (<["x" := Some (Integer 9 5)]> ∅) (Some 0)] []
       = mkHeap 10 ([mkEnvironment ∅ None] ++ [mkEnvironment st (Some 0)])%list
           []
       /\ forall p,
            In p [mkIdentifier (mkToken IDENT "x") "x"] ->
            is_Some (st !! Value p).
Proof.
  apply (extendedFunctionEnv_is_local 0
           [mkIdentifier (mkToken IDENT "x") "x"] [Some (Integer 9 5)]
           (mkHeap 10 [mkEnvironment ∅ None] [])).
  reflexivity.
Defined.

(** X13. Arguments beyond the parameters are ignored: a call with at least
    as many arguments as parameters gives the same outcome with any
    further arguments appended. *)
Theorem extra_arguments_ignored Ev a params body fnEnv args extra h :
  length params <= length args ->
  evaluator.applyFunction Ev (Some (Function a params body fnEnv))
    (args ++ extra)%list h
  = evaluator.applyFunction Ev (Some (Function a params body fnEnv)) args h.
Proof.
  intros Hlen. unfold evaluator.applyFunction, evaluator.extendedFunctionEnv.
  unfold bind, NewExtendedEnvironment.
  now rewrite bindParameters_extra by (cbn; lia).
Qed.

Lemma extra_arguments_ignored_witness :
  evaluator.applyFunction (evaluator.Eval 5)
    (Some (Function 9 [mkIdentifier (mkToken IDENT "x") "x"]
             (Block (mkToken LBRACE "{") []) 0))
    ([Some (Integer 10 1)] ++ [Some (Integer 11 2)])%list
    (mkHeap 12 [mkEnvironment ∅ None] [])
  = evaluator.applyFunction (evaluator.Eval 5)
      (Some (Function 9 [mkIdentifier (mkToken IDENT "x") "x"]
               (Block (mkToken LBRACE "{") []) 0))
      [Some (Integer 10 1)] (mkHeap 12 [mkEnvironment ∅ None] []).
Proof.
  apply extra_arguments_ignored. cbn. lia.
Defined.


(** X15. After [let name = e], where [e] evaluates to a value, the
    statement itself gives no object and the identifier [name] evaluates
    to that value in the same environment. *)
Theorem let_then_identifier n m tok itok name e env h v h1 :
  evaluator.Eval n (expr_node e) env h = Ok (v, h1) ->
  is_value v ->
  env < length (envs h1) ->
  exists h2,
    evaluator.Eval (S n) (NodeStatement (LetStatement tok name e)) env h
    = Ok (None, h2)
    /\ evaluator.Eval (S m)
         (NodeExpression (Ident (mkIdentifier itok (Value name)))) env h2
       = Ok (v, h2).
Proof.
  intros He Hv Henv. unfold envid in *.
  destruct (lookup_lt_is_Some_2 _ _ Henv) as [en E].
  eexists. split.
  - cbn [evaluator.Eval]. unfold evaluator.Eval_body, bind.
    rewrite He, isError_value by exact Hv. unfold Set_. unfold envid in *.
    rewrite E. reflexivity.
  - cbn [evaluator.Eval]. unfold evaluator.Eval_body, evaluator.evalIdentifier.
    unfold bind. cbn [Value].
    destruct m; cbn; unfold envid in *;
      rewrite list_lookup_insert_eq by exact Henv; cbn;
      now rewrite lookup_insert_eq.
Qed.

Lemma let_then_identifier_witness :
  exists h2,
    evaluator.Eval 2
      (NodeStatement
         (LetStatement (mkToken LET "let")
            (mkIdentifier (mkToken IDENT "x") "x")
            (Some (IntegerLiteral (mkToken INT "5") 5))))
      0 (mkHeap 9 [mkEnvironment ∅ None] [])
    = Ok (None, h2)
    /\ evaluator.Eval 1
         (NodeExpression
            (Ident (mkIdentifier (mkToken IDENT "x")
                      (Value (mkIdentifier (mkToken IDENT "x") "x")))))
         0 h2
       = Ok (Some (Integer 9 5), h2).
Proof.
  apply (let_then_identifier 1 0 (mkToken LET "let") (mkToken IDENT "x")
           (mkIdentifier (mkToken IDENT "x") "x")
           (Some (IntegerLiteral (mkToken INT "5") 5)) 0
           (mkHeap 9 [mkEnvironment ∅ None] []) (Some (Integer 9 5))
           (mkHeap 10 [mkEnvironment ∅ None] [])).
  - reflexivity.
  - eexists. split; [reflexivity |]. vm_compute. discriminate.
  - cbn. lia.
Defined.

(** ** The environment of a call *)

Lemma bindParameters_store l o params args nx out :
  forall k st h',
    evaluator.bindParameters (length l) k params args
      (mkHeap nx (l ++ [mkEnvironment st o])%list out) = Ok (tt, h') ->
    exists st',
      h' = mkHeap nx (l ++ [mkEnvironment st' o])%list out
      /\ (forall name, ~ In name (map Value params) -> st' !! name = st !! name)
      /\ (NoDup (map Value params) ->
          forall i p, params !! i = Some p ->
            exists arg, args !! (k + i) = Some arg
                        /\ st' !! Value p = Some arg).
Proof.
  induction params as [| p rest IH]; intros k st h'; cbn.
  - intros [= <-]. exists st.
    split; [reflexivity | split; [reflexivity | intros _ i p' [=]]].
  - destruct (args !! k) as [arg |] eqn:Ek; [| discriminate].
    unfold bind, Set_. cbn. unfold envid in *.
    rewrite lookup_app_r by reflexivity. rewrite Nat.sub_diag. cbn.
    rewrite insert_app_r_alt by reflexivity. rewrite Nat.sub_diag. cbn.
    intros H. apply IH in H as (st' & -> & Hout & Hin). exists st'.
    split; [reflexivity | split].
    + intros name Hname. rewrite Hout by tauto.
      apply lookup_insert_ne. tauto.
    + intros Hnd i q Hq. apply NoDup_cons in Hnd as [Hp Hnd].
      destruct i as [| i]; cbn in Hq.
      * injection Hq as <-. exists arg. rewrite Nat.add_0_r.
        split; [exact Ek |]. rewrite Hout.
        -- apply lookup_insert_eq.
        -- intros Hc. apply Hp. now apply list_elem_of_In.
      * destruct (Hin Hnd i q Hq) as (a & Ha & Hs). exists a.
        split; [| exact Hs]. now replace (k + S i) with (S k + i) by lia.
Qed.

Lemma Get_older_environments n e name nx nx' l extra out out' :
  (forall i env o, l !! i = Some env -> outer env = Some o -> o < i) ->
  e < length l ->
  result (Get n e name (mkHeap nx (l ++ extra)%list out))
  = result (Get n e name (mkHeap nx' l out')).
Proof.
  intros Hc. revert e. induction n as [| n IH]; intros e He; cbn;
    unfold envid in *; rewrite lookup_app_l by exact He;
    destruct (l !! e) as [env |] eqn:E; try reflexivity;
    destruct (store env !! name); try reflexivity;
    destruct (outer env) as [o |] eqn:Eo; try reflexivity.
  apply IH. specialize (Hc _ _ _ E Eo). lia.
Qed.

(** X16. The body of a function sees its parameters and, for every other
    name, what the environment the function was made in holds: in the
    environment of a call a parameter resolves to the argument at its
    index (the names of the parameters being different), and a name that
    is no parameter resolves as it does in the function's environment. *)
Theorem call_environment fnEnv params args h e h' :
  evaluator.extendedFunctionEnv fnEnv params args h = Ok (e, h') ->
  chain_ok h ->
  fnEnv < length (envs h) ->
  (forall n name,
      ~ In name (map Value params) ->
      result (Get (S n) e name h') = result (Get n fnEnv name h))
  /\ (NoDup (map Value params) ->
      forall n i p,
        params !! i = Some p ->
        exists arg, args !! i = Some arg
                    /\ Get n e (Value p) h' = Ok (Some arg, h')).
Proof.
  unfold evaluator.extendedFunctionEnv, bind, NewExtendedEnvironment.
  destruct (evaluator.bindParameters _ _ _ _ _) as [[[] h1] |  |] eqn:E;
    try discriminate.
  intros [= <- <-] Hc Hfn.
  apply bindParameters_store in E as (st & -> & Hout & Hin). split.
  - intros n name Hname. cbn. unfold envid in *.
    rewrite lookup_app_r by reflexivity. rewrite Nat.sub_diag. cbn.
    rewrite Hout by exact Hname. rewrite lookup_empty.
    destruct h as [nx l out]. cbn in *.
    now apply Get_older_environments.
  - intros Hnd n i p Hp. destruct (Hin Hnd i p Hp) as (arg & Ha & Hs).
    exists arg. split; [exact Ha |].
    destruct n; cbn; unfold envid in *;
      rewrite lookup_app_r by reflexivity; rewrite Nat.sub_diag; cbn;
      now rewrite Hs.
Qed.

Lemma call_environment_witness :
  result
    (Get 2 1 "y"
       (mkHeap 10
          [mkEnvironment (<["y" := Some (Integer 9 7)]> ∅) None;
           mkEnvironment (<["x" := Some (Integer 8 5)]> ∅) (Some 0)] []))
  = result
      (Get 1 0 "y"
         (mkHeap 10 [mkEnvironment (<["y" := Some (Integer 9 7)]> ∅) None] [])).
Proof.
  refine (proj1 (call_environment 0 [mkIdentifier (mkToken IDENT "x") "x"]
                   [Some (Integer 8 5)]
                   (mkHeap 10
                      [mkEnvironment (<["y" := Some (Integer 9 7)]> ∅) None] [])
                   1 _ _ _ _) 1 "y" _).
  - reflexivity.
  - intros [| i] env o; cbn; intros [= <-]. cbn. discriminate.
  - cbn. lia.
  - cbn. intros [[=] | []].
Defined.

(** ** What an evaluation does to the heap *)

Section Growth.

Lemma extends_refl h : extends h h.
Proof. repeat split; [lia |]. intros i env E. exists env. auto. Qed.

Lemma extends_trans h1 h2 h3 : extends h1 h2 -> extends h2 h3 -> extends h1 h3.
Proof.
  intros (N1 & O1 & E1) (N2 & O2 & E2). repeat split; [lia | congruence |].
  intros i env E. destruct (E1 _ _ E) as (env2 & L2 & X2 & D2).
  destruct (E2 _ _ L2) as (env3 & L3 & X3 & D3). exists env3.
  repeat split; [assumption | congruence | set_solver].
Qed.

Lemma grows_ret {A} (a : A) : grows (ret a).
Proof. intros h a' h' [= <- <-]. apply extends_refl. Qed.

Lemma grows_panic {A} : grows (@panic A).
Proof. intros h a h' [=]. Qed.

Lemma grows_bind {A B} (m : M A) (k : A -> M B) :
  grows m -> (forall a, grows (k a)) -> grows (bind m k).
Proof.
  intros Hm Hk h b h'. unfold bind.
  destruct (m h) as [[a h1] | |] eqn:E; try discriminate.
  intros E'. eapply extends_trans; [eapply Hm, E | eapply Hk, E'].
Qed.

Lemma grows_alloc : grows alloc.
Proof.
  intros h a h' [= <- <-]. repeat split; cbn; [lia |].
  intros i env E. exists env. auto.
Qed.

Lemma grows_TypeOf v : grows (evaluator.TypeOf v).
Proof. destruct v; [apply grows_ret | apply grows_panic]. Qed.

Lemma grows_isError v : grows (evaluator.isError v).
Proof.
  apply grows_bind; [apply grows_TypeOf | intros; apply grows_ret].
Qed.

Lemma grows_newError msg : grows (evaluator.newError msg).
Proof. apply grows_bind; [apply grows_alloc | intros; apply grows_ret]. Qed.

Lemma grows_newInteger v : grows (evaluator.newInteger v).
Proof. apply grows_bind; [apply grows_alloc | intros; apply grows_ret]. Qed.

Lemma grows_NewExtendedEnvironment o : grows (NewExtendedEnvironment o).
Proof.
  intros h a h' [= <- <-]. repeat split; cbn; [lia |].
  intros i env E. exists env. split; [now apply lookup_app_l_Some | auto].
Qed.

Lemma grows_Set e name v : grows (Set_ e name v).
Proof.
  intros h a h'. unfold Set_. unfold envid in *.
  destruct (envs h !! e) as [env |] eqn:E; [| discriminate].
  intros [= <- <-]. repeat split; cbn; [lia |]. intros i env0 E0.
  destruct (decide (i = e)) as [-> | Hne].
  - rewrite list_lookup_insert_eq by (now apply lookup_lt_Some in E).
    assert (env0 = env) as -> by congruence. eexists. split; [reflexivity |].
    cbn. split; [reflexivity |]. rewrite dom_insert. set_solver.
  - rewrite list_lookup_insert_ne by congruence. exists env0. auto.
Qed.

Lemma grows_Get n e name : grows (Get n e name).
Proof.
  revert e. induction n as [| n IH]; intros e h a h'; cbn;
    destruct (envs h !! e) as [env |]; try discriminate;
    destruct (store env !! name); try (intros [= <- <-]; apply extends_refl);
    destruct (outer env); try discriminate;
    try (intros [= <- <-]; apply extends_refl).
  apply IH.
Qed.

Lemma grows_evalPrefixExpression op v :
  grows (evaluator.evalPrefixExpression op v).
Proof.
  unfold evaluator.evalPrefixExpression.
  destruct (String.eqb op "!"); [apply grows_ret |].
  destruct (String.eqb op "-").
  - unfold evaluator.evalMinusPrefixOperatorExpression.
    apply grows_bind; [apply grows_TypeOf |]. intros t.
    destruct (negb _); [apply grows_newError |].
    destruct v as [[] |]; try apply grows_panic.
    apply grows_bind; [apply grows_alloc | intros; apply grows_ret].
  - apply grows_bind; [apply grows_TypeOf | intros; apply grows_newError].
Qed.

Lemma grows_evalInfixExpression op a b :
  grows (evaluator.evalInfixExpression op a b).
Proof.
  unfold evaluator.evalInfixExpression.
  apply grows_bind; [apply grows_TypeOf |]. intros lt.
  apply grows_bind; [apply grows_TypeOf |]. intros rt.
  destruct (negb _); [apply grows_newError |].
  destruct (_ && _).
  - unfold evaluator.evalIntegerInfixExpression.
    destruct a as [[] |]; try apply grows_panic.
    destruct b as [[] |]; try apply grows_panic.
    repeat (match goal with
            | |- grows (if ?c then _ else _) => destruct c
            end;
            try apply grows_newInteger; try apply grows_panic;
            try apply grows_newError; try apply grows_ret).
  - repeat (match goal with
            | |- grows (if ?c then _ else _) => destruct c
            end;
            try apply grows_newError; try apply grows_ret).
Qed.

Lemma grows_bindParameters env params args :
  forall k, grows (evaluator.bindParameters env k params args).
Proof.
  induction params as [| p rest IH]; intros k; cbn; [apply grows_ret |].
  destruct (args !! k); [| apply grows_panic].
  apply grows_bind; [apply grows_Set | intros; apply IH].
Qed.

Lemma grows_extendedFunctionEnv fnEnv params args :
  grows (evaluator.extendedFunctionEnv fnEnv params args).
Proof.
  apply grows_bind; [apply grows_NewExtendedEnvironment |]. intros env.
  apply grows_bind; [apply grows_bindParameters | intros; apply grows_ret].
Qed.

Variable fuel : nat.
Variable Ev : Node -> envid -> M (option Object).
Hypothesis Ev_grows : forall node env, grows (Ev node env).

Lemma grows_evalProgram_from stmts env :
  forall result, grows (evaluator.evalProgram_from Ev result stmts env).
Proof.
  induction stmts as [| s rest IH]; intros result; cbn; [apply grows_ret |].
  apply grows_bind; [apply Ev_grows |]. intros [[] |];
    try apply IH; apply grows_ret.
Qed.

Lemma grows_evalBlockStatement_from stmts env :
  forall result, grows (evaluator.evalBlockStatement_from Ev result stmts env).
Proof.
  induction stmts as [| s rest IH]; intros result; cbn; [apply grows_ret |].
  apply grows_bind; [apply Ev_grows |]. intros [o |]; [| apply IH].
  destruct (_ || _); [apply grows_ret | apply IH].
Qed.

Lemma grows_evalExpressions_from exps env :
  forall acc, grows (evaluator.evalExpressions_from Ev acc exps env).
Proof.
  induction exps as [| e rest IH]; intros acc; cbn; [apply grows_ret |].
  apply grows_bind; [apply Ev_grows |]. intros r.
  apply grows_bind; [apply grows_isError |]. intros [];
    [apply grows_ret | apply IH].
Qed.

Lemma grows_applyFunction fn args : grows (evaluator.applyFunction Ev fn args).
Proof.
  unfold evaluator.applyFunction.
  assert (Hother : grows (let* t := evaluator.TypeOf fn in
                          evaluator.newError ("not a function: " +:+ t))).
  { apply grows_bind; [apply grows_TypeOf | intros; apply grows_newError]. }
  destruct fn as [[] |]; try exact Hother.
  apply grows_bind; [apply grows_extendedFunctionEnv |]. intros env.
  apply grows_bind; [apply Ev_grows | intros; apply grows_ret].
Qed.

Lemma grows_Eval_body node env : grows (evaluator.Eval_body fuel Ev node env).
Proof.
  destruct node as [| prog | s | e]; cbn.
  - apply grows_ret.
  - apply grows_evalProgram_from.
  - destruct s as [tok name v | | tok v | tok e | [tok stmts]].
    + apply grows_bind; [apply Ev_grows |]. intros val.
      apply grows_bind; [apply grows_isError |]. intros []; [apply grows_ret |].
      apply grows_bind; [apply grows_Set | intros; apply grows_ret].
    + apply grows_panic.
    + apply grows_bind; [apply Ev_grows |]. intros val.
      apply grows_bind; [apply grows_isError |]. intros []; [apply grows_ret |].
      apply grows_bind; [apply grows_alloc | intros; apply grows_ret].
    + apply Ev_grows.
    + apply grows_evalBlockStatement_from.
  - destruct e as [i | tok v | tok v | tok op rhs | tok lhs op rhs
                   | tok cond cons alt | tok params body | tok fn args].
    + apply grows_bind; [apply grows_Get |]. intros [val |];
        [apply grows_ret | apply grows_newError].
    + apply grows_newInteger.
    + apply grows_ret.
    + apply grows_bind; [apply Ev_grows |]. intros r.
      apply grows_bind; [apply grows_isError |]. intros [];
        [apply grows_ret | apply grows_evalPrefixExpression].
    + apply grows_bind; [apply Ev_grows |]. intros a.
      apply grows_bind; [apply grows_isError |]. intros []; [apply grows_ret |].
      apply grows_bind; [apply Ev_grows |]. intros b.
      apply grows_bind; [apply grows_isError |]. intros [];
        [apply grows_ret | apply grows_evalInfixExpression].
    + unfold evaluator.evalIfExpression.
      apply grows_bind; [apply Ev_grows |]. intros c.
      apply grows_bind; [apply grows_isError |]. intros []; [apply grows_ret |].
      destruct (evaluator.isTruthy c); [apply Ev_grows |].
      destruct alt; [apply Ev_grows | apply grows_ret].
    + apply grows_bind; [apply grows_alloc | intros; apply grows_ret].
    + apply grows_bind; [apply Ev_grows |]. intros f.
      apply grows_bind; [apply grows_isError |]. intros []; [apply grows_ret |].
      apply grows_bind; [apply grows_evalExpressions_from |]. intros vs.
      destruct vs as [| a [| b vs']]; try apply grows_applyFunction.
      apply grows_bind; [apply grows_isError |]. intros [];
        [apply grows_ret | apply grows_applyFunction].
Qed.

End Growth.

(** X17. An evaluation only ever extends the heap: it prints nothing, it
    never reuses an address, and every environment that existed before
    still exists afterwards with the same outer environment and with every
    name it had bound still bound. *)
Theorem Eval_extends_heap n node env h r h' :
  evaluator.Eval n node env h = Ok (r, h') -> extends h h'.
Proof.
  revert node env h r h'. induction n as [| n IH]; intros node env;
    [intros h r h' [=] |].
  cbn [evaluator.Eval]. apply grows_Eval_body. exact IH.
Qed.

Lemma Eval_extends_heap_witness :
  extends (mkHeap 9 [mkEnvironment ∅ None] [])
    (mkHeap 10 [mkEnvironment (<["x" := Some (Integer 9 5)]> ∅) None] []).
Proof.
  apply (Eval_extends_heap 2
           (NodeStatement
              (LetStatement (mkToken LET "let")
                 (mkIdentifier (mkToken IDENT "x") "x")
                 (Some (IntegerLiteral (mkToken INT "5") 5))))
           0 (mkHeap 9 [mkEnvironment ∅ None] []) None).
  reflexivity.
Defined.

(** ** The host functions *)

(** X18. [len], [last], [rest] and [push] return on every list of
    arguments that holds no [nil]: wrong arities and wrong types give an
    [Error] object or [NULL], never a panic. *)
Theorem builtins_return fn args h :
  fn = fn_len \/ fn = fn_last \/ fn = fn_rest \/ fn = fn_push ->
  Forall is_Some args ->
  exists r h', evaluator.call_builtin fn args h = Ok (r, h').
Proof.
  intros Hfn Hargs.
  assert (Hns : forall name o,
             exists r h', evaluator.notSupported name (Some o) h = Ok (r, h'))
    by (intros; eexists _, _; reflexivity).
  destruct Hfn as [-> | [-> | [-> | ->]]]; cbn.
  - unfold evaluator.builtin_len.
    destruct args as [| [[] |] [| ? ?]]; try (eexists _, _; reflexivity).
    now apply Forall_inv in Hargs as [? [=]].
  - unfold evaluator.builtin_last.
    destruct args as [| [[| | | | | | a v | a els |] |] [| ? ?]];
      try (eexists _, _; reflexivity).
    + destruct (Nat.eqb _ _); eexists _, _; reflexivity.
    + destruct (Nat.eqb_spec (length els) 0) as [| Hne];
        [eexists _, _; reflexivity |].
      destruct (lookup_lt_is_Some_2 els (length els - 1)) as [e ->]; [lia |].
      eexists _, _; reflexivity.
    + now apply Forall_inv in Hargs as [? [=]].
  - unfold evaluator.builtin_rest.
    destruct args as [| [[| | | | | | a v | a els |] |] [| ? ?]];
      try (eexists _, _; reflexivity).
    + destruct (Nat.eqb _ _); eexists _, _; reflexivity.
    + destruct (Nat.eqb _ _); eexists _, _; reflexivity.
    + now apply Forall_inv in Hargs as [? [=]].
  - unfold evaluator.builtin_push.
    destruct (Nat.ltb _ _); [eexists _, _; reflexivity |].
    destruct args as [| [[] |] more]; eexists _, _; reflexivity.
Qed.

Lemma builtins_return_witness :
  exists r h',
    evaluator.call_builtin fn_last [Some (Integer 9 5); Some (Integer 10 6)]
      evaluator.init
    = Ok (r, h').
Proof.
  apply builtins_return.
  - right. left. reflexivity.
  - repeat constructor; eexists; reflexivity.
Defined.



(** X20. [first] of a string converts its first byte to a string as a
    code point: a byte below 128 gives the one-byte string of that byte, a
    byte from 128 on gives a string of two bytes. *)
Theorem first_of_string_converts_byte a b rest h :
  exists s,
    evaluator.builtin_first [Some (String_ a (String b rest))] h
    = Ok (Some (String_ (next h) s), mkHeap (S (next h)) (envs h) (stdout h))
    /\ (nat_of_ascii b < 128 -> s = String b EmptyString)
    /\ (128 <= nat_of_ascii b -> String.length s = 2 /\ s <> String b EmptyString).
Proof.
  eexists. split; [reflexivity |]. unfold string_of_byte.
  destruct (Nat.ltb_spec (nat_of_ascii b) 128); split; intros; try lia;
    try reflexivity.
  split; [reflexivity | discriminate].
Qed.

(** X21. The host functions make no second [TRUE], [FALSE] or [NULL]: on
    arguments and a heap in which every [Boolean] and every [Null] is one
    of the three, the object a host function returns and the heap it
    leaves hold no other [Boolean] or [Null]. *)
Theorem builtins_keep_singletons fn args h r h' :
  Forall singletons_opt args ->
  heap_singletons h ->
  evaluator.call_builtin fn args h = Ok (r, h') ->
  singletons_opt r /\ heap_singletons h'.
Proof.
  intros Hargs Hh E. exact (preserves_call_builtin fn args Hargs h r h' Hh E).
Qed.

Lemma builtins_keep_singletons_witness :
  singletons_opt (Some evaluator.NULL) /\ heap_singletons evaluator.init.
Proof.
  apply (builtins_keep_singletons fn_last [Some (Array 9 [])] evaluator.init
           (Some evaluator.NULL) evaluator.init).
  - repeat constructor.
  - constructor.
  - reflexivity.
Defined.

(** ** Tokens of the lexer *)

(** X22. The lexer has no case for the bytes of [:], the opening and the
    closing bracket, although the token types exist: whatever the input,
    [NextToken] never returns a token of type [COLON], [LBRACKET] or
    [RBRACKET], nor one whose type is not set. *)
Theorem NextToken_never_brackets lx :
  match token.Type_ (fst (lexer.NextToken lx)) with
  | UNSET | COLON | LBRACKET | RBRACKET => False
  | _ => True
  end.
Proof.
  unfold lexer.NextToken, lexer.readString, lexer.readIdentifier,
    lexer.readNumber, lexer.newToken, LookupIdent, keywords.
  repeat match goal with
         | |- context [if ?c then _ else _] => destruct c
         end;
    exact I.
Qed.

Lemma readWhile_readPosition cond n lx :
  lexer.readPosition lx <= lexer.readPosition (lexer.readWhile cond n lx).
Proof.
  revert lx. induction n as [| n IH]; intros lx; cbn; [lia |].
  destruct (cond (lexer.ch lx)); [| lia].
  etransitivity; [| apply IH]. cbn. lia.
Qed.

Lemma readWhile_moves cond n lx :
  cond (lexer.ch lx) = true ->
  lexer.readPosition lx < lexer.readPosition (lexer.readWhile cond (S n) lx).
Proof.
  intros H. cbn. rewrite H.
  pose proof (readWhile_readPosition cond n (lexer.readChar lx)) as L.
  cbn in L. lia.
Qed.

Lemma readStringLoop_moves n lx :
  lexer.readPosition lx < lexer.readPosition (lexer.readStringLoop n lx).
Proof.
  revert lx. induction n as [| n IH]; intros lx.
  - rewrite readStringLoop_0. cbn. lia.
  - rewrite readStringLoop_S. destruct (closes _); [cbn; lia |].
    etransitivity; [| apply IH]. cbn. lia.
Qed.

(** X23. Every call of [NextToken] moves the read position forward, past
    at least one byte of the input or past its end. *)
Theorem NextToken_moves lx :
  lexer.readPosition lx < lexer.readPosition (snd (lexer.NextToken lx)).
Proof.
  unfold lexer.NextToken.
  pose proof (readWhile_readPosition lexer.isWhitespace (lexer.bound lx) lx)
    as Hs.
  fold (lexer.skipWhitespace lx) in Hs |- *.
  set (l := lexer.skipWhitespace lx) in *.
  unfold lexer.readString, lexer.readIdentifier, lexer.readNumber, lexer.bound.
  pose proof (readStringLoop_moves (S (String.length (lexer.input l))) l).
  repeat match goal with
         | |- _ < lexer.readPosition (snd (if ?c then _ else _)) =>
             destruct c eqn:?
         end;
    cbn [snd lexer.readChar lexer.readPosition]; try lia.
  - pose proof (readWhile_moves lexer.isLetter
                  (String.length (lexer.input l)) l ltac:(assumption)). lia.
  - pose proof (readWhile_moves lexer.isDigit
                  (String.length (lexer.input l)) l ltac:(assumption)). lia.
Qed.

Lemma advance_positioned k lx : positioned lx -> positioned (advance k lx).
Proof.
  revert lx. induction k as [| k IH]; intros lx H; cbn; [exact H |].
  apply IH, positioned_NextToken, H.
Qed.

Lemma NextToken_input lx :
  lexer.input (snd (lexer.NextToken lx)) = lexer.input lx.
Proof.
  unfold lexer.NextToken.
  pose proof (readWhile_input lexer.isWhitespace (lexer.bound lx) lx) as Hs.
  fold (lexer.skipWhitespace lx) in Hs |- *.
  set (l := lexer.skipWhitespace lx) in *.
  unfold lexer.readString, lexer.readIdentifier, lexer.readNumber.
  assert (Hstr : forall n lx, lexer.input (lexer.readStringLoop n lx)
                              = lexer.input lx).
  { induction n as [| n IH]; intros lx'.
    - now rewrite readStringLoop_0.
    - rewrite readStringLoop_S. destruct (closes _); [reflexivity |].
      now rewrite IH. }
  repeat match goal with
         | |- lexer.input (snd (if ?c then _ else _)) = _ => destruct c
         end;
    cbn [snd lexer.readChar lexer.input];
    rewrite ?readWhile_input, ?Hstr; exact Hs.
Qed.

Lemma advance_reaches k lx :
  lexer.input (advance k lx) = lexer.input lx
  /\ lexer.readPosition lx + k <= lexer.readPosition (advance k lx).
Proof.
  revert lx. induction k as [| k IH]; intros lx; cbn; [split; [easy | lia] |].
  destruct (IH (snd (lexer.NextToken lx))) as [Hi Hp].
  pose proof (NextToken_moves lx). rewrite NextToken_input in Hi.
  split; [exact Hi | lia].
Qed.

(** X24. Lexing reaches the end of every input: after as many calls of
    [NextToken] as the input has bytes, at the latest, every further call
    returns the [EOF] token with the empty literal. *)
Theorem lexer_reaches_EOF inp k :
  String.length inp <= k ->
  fst (lexer.NextToken (advance k (lexer.New inp))) = mkToken EOF EmptyString.
Proof.
  intros Hk.
  pose proof (advance_positioned k _ (positioned_New inp)) as [_ Hz].
  destruct (advance_reaches k (lexer.New inp)) as [Hi Hp]. cbn in Hi, Hp.
  assert (Hex : exhausted (advance k (lexer.New inp))).
  { split; [apply Hz |]; rewrite Hi; lia. }
  now destruct (NextToken_exhausted _ Hex) as [-> _].
Qed.

Lemma lexer_reaches_EOF_witness :
  fst (lexer.NextToken (advance 3 (lexer.New "a b")))
  = mkToken EOF EmptyString.
Proof. apply lexer_reaches_EOF. cbn. lia. Defined.

(** ** Literals of identifiers and integers *)

Lemma get_past_end s n : String.length s <= n -> String.get n s = None.
Proof.
  revert n. induction s as [| c s IH]; intros n H; [now destruct n |].
  destruct n as [| n]; cbn in *; [lia |]. apply IH. lia.
Qed.

Lemma synced_readChar lx : synced (lexer.readChar lx).
Proof.
  split; [reflexivity |]. cbn.
  destruct (Nat.leb_spec (String.length (lexer.input lx))
              (lexer.readPosition lx)) as [H |]; [| reflexivity].
  unfold byte_at. now rewrite get_past_end.
Qed.

Lemma synced_readWhile cond n lx :
  synced lx -> synced (lexer.readWhile cond n lx).
Proof.
  revert lx. induction n as [| n IH]; intros lx H; cbn; [exact H |].
  destruct (cond (lexer.ch lx)); [| exact H]. apply IH, synced_readChar.
Qed.

(** The bytes that a loop of [readChar] runs over satisfy its condition. *)
Lemma readWhile_run cond n lx :
  synced lx ->
  forall i,
    lexer.position lx <= i < lexer.position (lexer.readWhile cond n lx) ->
    cond (byte_at (lexer.input lx) i) = true.
Proof.
  revert lx. induction n as [| n IH]; intros lx Hs i Hi; cbn in Hi; [lia |].
  destruct (cond (lexer.ch lx)) eqn:Hc; [| lia].
  destruct (Nat.eq_dec i (lexer.position lx)) as [-> | Hne].
  - destruct Hs as [_ <-]. exact Hc.
  - apply (IH (lexer.readChar lx) (synced_readChar lx)).
    destruct Hs as [Hrp _]. cbn in *. lia.
Qed.

Lemma all_bytes_get P s :
  (forall p c, String.get p s = Some c -> P c = true) -> all_bytes P s = true.
Proof.
  induction s as [| a s IH]; intros H; [reflexivity |]. cbn.
  rewrite (H 0 a eq_refl). apply IH. intros p c Hp. exact (H (S p) c Hp).
Qed.

(** The literal cut out by [readIdentifier] and [readNumber]. *)
Lemma readWhile_literal cond n lx :
  synced lx ->
  cond Ascii.zero = false ->
  cond (lexer.ch lx) = true ->
  let lit := slice (lexer.input lx) (lexer.position lx)
               (lexer.position (lexer.readWhile cond (S n) lx)) in
  all_bytes cond lit = true /\ lit <> EmptyString.
Proof.
  intros Hs Hz Hc lit. split.
  - apply all_bytes_get. intros p c Hp. unfold lit, slice in Hp.
    destruct (Nat.lt_ge_cases p
                (lexer.position (lexer.readWhile cond (S n) lx)
                 - lexer.position lx)) as [Hlt | Hge].
    + rewrite substring_correct1 in Hp by exact Hlt.
      pose proof (readWhile_run cond (S n) lx Hs (p + lexer.position lx)
                    ltac:(lia)) as R.
      unfold byte_at in R. now rewrite Hp in R.
    + now rewrite substring_correct2 in Hp by exact Hge.
  - assert (Hget : String.get 0 lit
                   = String.get (lexer.position lx) (lexer.input lx)).
    { unfold lit, slice. rewrite substring_correct1; [reflexivity |].
      cbn. rewrite Hc.
      pose proof (readWhile_readPosition cond n (lexer.readChar lx)) as L.
      pose proof (synced_readWhile cond n _ (synced_readChar lx)) as [Hrp _].
      destruct Hs as [Hrp0 _]. cbn in L. lia. }
    destruct Hs as [_ Hch]. unfold byte_at in Hch.
    destruct (String.get (lexer.position lx) (lexer.input lx)) as [c |] eqn:G.
    + intros E. rewrite E in Hget. discriminate.
    + rewrite Hch, Hz in Hc. discriminate.
Qed.

(** X25. An identifier is a non-empty run of letters and underscores, with
    no digit in it, and an integer literal is a non-empty run of decimal
    digits: the literal of every [IDENT] token and of every [INT] token
    that [NextToken] returns is such a string. *)
Theorem NextToken_literals lx :
  synced lx ->
  let tok := fst (lexer.NextToken lx) in
  (token.Type_ tok = IDENT ->
   all_bytes lexer.isLetter (Literal tok) = true
   /\ Literal tok <> EmptyString)
  /\ (token.Type_ tok = INT ->
      all_bytes lexer.isDigit (Literal tok) = true
      /\ Literal tok <> EmptyString).
Proof.
  intros Hs. unfold lexer.NextToken.
  pose proof (synced_readWhile lexer.isWhitespace (lexer.bound lx) lx Hs) as Hl.
  fold (lexer.skipWhitespace lx) in Hl |- *.
  set (l := lexer.skipWhitespace lx) in *.
  unfold lexer.readString, lexer.readIdentifier, lexer.readNumber,
    lexer.newToken, lexer.bound.
  repeat match goal with
         | |- context [if ?c then _ else _] => destruct c eqn:?
         end;
    cbn [fst token.Type_ Literal]; split; try discriminate; intros HT.
  - now apply readWhile_literal.
  - unfold LookupIdent, keywords in HT.
    repeat match type of HT with
           | context [if ?c then _ else _] => destruct c
           end; discriminate.
  - now apply readWhile_literal.
Qed.

Lemma NextToken_literals_witness :
  (token.Type_ (fst (lexer.NextToken (lexer.New "ab1"))) = IDENT ->
   all_bytes lexer.isLetter (Literal (fst (lexer.NextToken (lexer.New "ab1"))))
   = true
   /\ Literal (fst (lexer.NextToken (lexer.New "ab1"))) <> EmptyString)
  /\ (token.Type_ (fst (lexer.NextToken (lexer.New "ab1"))) = INT ->
      all_bytes lexer.isDigit
        (Literal (fst (lexer.NextToken (lexer.New "ab1")))) = true
      /\ Literal (fst (lexer.NextToken (lexer.New "ab1"))) <> EmptyString).
Proof.
  apply (NextToken_literals (lexer.New "ab1")). split; reflexivity.
Defined.

(** ** Statements of the parser *)



Lemma parseStatement_valueless n p s p' :
  token.Type_ (parser.curToken p) = LET
  \/ token.Type_ (parser.curToken p) = RETURN ->
  parser.parseStatement n p = Some (s, p') ->
  exists s', s = Some s' /\ valueless s'.
Proof.
  intros Hcur. destruct n as [| n]; [discriminate |].
  cbn [parser.parseStatement]. unfold parser.parseStatement_body.
  destruct Hcur as [-> | ->].
  - destruct (parser.parseLetStatement n p) as [[s0 p0] |] eqn:E;
      [| discriminate].
    intros [= <- <-]. eexists. split; [reflexivity |].
    destruct (parseLetStatement_value_absent _ _ _ _ E)
      as [-> | (tok & name & ->)]; reflexivity.
  - unfold parser.parseReturnStatement.
    destruct (parser.skipToSemicolon n _); [| discriminate].
    intros [= <- <-]. eexists. split; reflexivity.
Qed.

Lemma parseStatements_S n acc p :
  parser.parseStatements (S n) acc p
  = if bool_decide (token.Type_ (parser.curToken p) = EOF) then Some (acc, p)
    else match parser.parseStatement n p with
         | None => None
         | Some (stmt, p) =>
             parser.parseStatements n
               match stmt with
               | Some s => (acc ++ [s])%list
               | None => acc
               end (parser.nextToken p)
         end.
Proof. reflexivity. Qed.

Lemma parseStatements_extends n :
  forall acc p stmts p',
    parser.parseStatements n acc p = Some (stmts, p') ->
    exists more, stmts = (acc ++ more)%list.
Proof.
  induction n as [| n IH]; intros acc p stmts p'; cbn;
    destruct (bool_decide _);
    try (intros [= <- <-]; exists []; now rewrite app_nil_r);
    try discriminate.
  destruct (parser.parseStatement n p) as [[[s |] p0] |]; try discriminate;
    intros H; apply IH in H as [more ->]; [| eauto].
  exists (s :: more). now rewrite <- app_assoc.
Qed.

Lemma Eval_valueless n s env h :
  valueless s ->
  evaluator.Eval n (NodeStatement s) env h = Panic
  \/ evaluator.Eval n (NodeStatement s) env h = OutOfFuel.
Proof.
  intros Hs. destruct n as [| [| n]]; [now right | |];
    destruct s as [tok name v | | tok v | |]; cbn in Hs; subst;
    try contradiction; cbn; auto.
Qed.

Lemma Eval_program_valueless n s rest env h :
  valueless s ->
  evaluator.Eval n (NodeProgram (mkProgram (s :: rest))) env h = Panic
  \/ evaluator.Eval n (NodeProgram (mkProgram (s :: rest))) env h = OutOfFuel.
Proof.
  intros Hs. destruct n as [| n]; [now right |].
  cbn [evaluator.Eval]. unfold evaluator.Eval_body, evaluator.evalProgram.
  cbn [Statements evaluator.evalProgram_from]. unfold bind.
  destruct (Eval_valueless n s env h Hs) as [-> | ->]; auto.
Qed.

Lemma parseStatements_first n p stmts p' :
  token.Type_ (parser.curToken p) = LET
  \/ token.Type_ (parser.curToken p) = RETURN ->
  parser.parseStatements n [] p = Some (stmts, p') ->
  exists s rest, stmts = s :: rest /\ valueless s.
Proof.
  intros Hcur E. destruct n as [| n]; cbn [parser.parseStatements] in E;
    rewrite bool_decide_eq_false_2 in E
      by (destruct Hcur as [-> | ->]; discriminate);
    [discriminate |].
  destruct (parser.parseStatement n p) as [[s p0] |] eqn:Es; [| discriminate].
  destruct (parseStatement_valueless _ _ _ _ Hcur Es) as (s' & -> & Hv).
  apply parseStatements_extends in E as [more ->]. eauto.
Qed.

(** X27. A source text that starts with [let] or with [return] never
    evaluates to a result: whatever follows, and whatever the fuel, the
    run panics or does not return, because the statement that the parser
    makes of it has no value. *)
Theorem let_or_return_first_never_evaluates n src :
  token.Type_ (parser.curToken (parser.New (lexer.New src))) = LET
  \/ token.Type_ (parser.curToken (parser.New (lexer.New src))) = RETURN ->
  evaluator.run n src = Panic \/ evaluator.run n src = OutOfFuel.
Proof.
  intros Hcur. unfold evaluator.run, parser.parse, parser.ParseProgram.
  destruct (parser.parseStatements n [] _) as [[stmts p'] |] eqn:E;
    [| now right].
  destruct (parseStatements_first _ _ _ _ Hcur E) as (s & rest & -> & Hv).
  unfold bind, NewEnvironment.
  match goal with
  | |- context [evaluator.Eval ?k _ ?e ?hh] =>
      destruct (Eval_program_valueless k s rest e hh Hv) as [-> | ->]
  end; auto.
Qed.

Lemma let_or_return_first_never_evaluates_witness :
  evaluator.run 100 "let five = 5; five" = Panic
  \/ evaluator.run 100 "let five = 5; five" = OutOfFuel.
Proof.
  apply let_or_return_first_never_evaluates. left. vm_compute. reflexivity.
Defined.

Lemma cat_None_r a : cat a None = None.
Proof. now destruct a. Qed.

Lemma statements_String_nil tok stmts :
  In LetStatement_nil stmts -> BlockStatement_String (Block tok stmts) = None.
Proof.
  cbn. induction stmts as [| s rest IH]; [intros [] |].
  intros [-> | H]; [reflexivity |].
  rewrite IH by exact H. apply cat_None_r.
Qed.

(** X28. A [let] that is not followed by an identifier is not discarded:
    [parseStatement] returns a statement that holds the nil pointer, after
    recording the one error, [ParseProgram] appends it to the program, and
    [String()] of a program that holds it panics. *)
Theorem failed_let_is_kept n p :
  token.Type_ (parser.curToken p) = LET ->
  token.Type_ (parser.peekToken p) <> IDENT ->
  parser.parseStatement (S n) p
  = Some (Some LetStatement_nil, parser.peekError IDENT p)
  /\ (forall stmts p',
        parser.ParseProgram (S (S n)) p = Some (mkProgram stmts, p') ->
        exists rest, stmts = LetStatement_nil :: rest)
  /\ (forall stmts,
        In LetStatement_nil stmts -> Program_String (mkProgram stmts) = None).
Proof.
  intros Hcur Hpeek.
  assert (Hs : parser.parseStatement (S n) p
               = Some (Some LetStatement_nil, parser.peekError IDENT p)).
  { cbn [parser.parseStatement]. unfold parser.parseStatement_body.
    rewrite Hcur. unfold parser.parseLetStatement, parser.expectPeek.
    unfold parser.peekTokenIs. now rewrite bool_decide_eq_false_2. }
  split; [exact Hs | split].
  - intros stmts p'. unfold parser.ParseProgram.
    rewrite parseStatements_S.
    rewrite bool_decide_eq_false_2 by (rewrite Hcur; discriminate).
    rewrite Hs.
    match goal with
    | |- context [parser.parseStatements ?k ?acc ?q] =>
        destruct (parser.parseStatements k acc q) as [[stmts' p''] |] eqn:E
    end; [| discriminate].
    intros [= <- <-]. apply parseStatements_extends in E as [more ->].
    now exists more.
  - intros stmts. apply statements_String_nil.
Qed.

Lemma failed_let_is_kept_witness :
  parser.parseStatement 1 (parser.New (lexer.New "let = 5;"))
  = Some (Some LetStatement_nil,
          parser.peekError IDENT (parser.New (lexer.New "let = 5;"))).
Proof.
  refine (proj1 (failed_let_is_kept 0 (parser.New (lexer.New "let = 5;")) _ _)).
  - vm_compute. reflexivity.
  - vm_compute. discriminate.
Defined.

(** ** Errors and tables of the parser *)

Lemma parsed_on_refl p : parsed_on p p.
Proof. repeat split. exists []. now rewrite app_nil_r. Qed.

Lemma parsed_on_trans p1 p2 p3 :
  parsed_on p1 p2 -> parsed_on p2 p3 -> parsed_on p1 p3.
Proof.
  intros (A1 & B1 & n1 & E1) (A2 & B2 & n2 & E2).
  repeat split; try congruence. exists (n1 ++ n2)%list.
  now rewrite E2, E1, app_assoc.
Qed.

Lemma parsed_on_nextToken p : parsed_on p (parser.nextToken p).
Proof.
  unfold parser.nextToken. destruct (lexer.NextToken _).
  repeat split. exists []. cbn. now rewrite app_nil_r.
Qed.

Lemma parsed_on_add_error p msg : parsed_on p (parser.add_error p msg).
Proof. repeat split. now exists [msg]. Qed.

Lemma parsed_on_expectPeek t p b p' :
  parser.expectPeek t p = (b, p') -> parsed_on p p'.
Proof.
  unfold parser.expectPeek. destruct (parser.peekTokenIs t p); intros [= <- <-].
  - apply parsed_on_nextToken.
  - apply parsed_on_add_error.
Qed.

Lemma parsed_on_skipToSemicolon n :
  forall p p', parser.skipToSemicolon n p = Some p' -> parsed_on p p'.
Proof.
  induction n as [| n IH]; intros p p'; cbn;
    destruct (parser.curTokenIs SEMICOLON p);
    try (intros [= <-]; apply parsed_on_refl); try discriminate.
  intros H. eapply parsed_on_trans; [apply parsed_on_nextToken | apply IH, H].
Qed.

(** Take a hypothesis on the result of a parse function apart and put the
    steps together again. *)
Ltac chain k :=
  lazymatch k with
  | 0 => fail
  | S ?k' =>
      (apply parsed_on_refl)
      + (eapply parsed_on_trans;
         [ (eassumption + apply parsed_on_nextToken
            + apply parsed_on_add_error)
         | chain k' ])
  end.

Ltac parsed_on_steps :=
  repeat match goal with
         | H : parser.expectPeek _ _ = _ |- _ =>
             apply parsed_on_expectPeek in H
         | H : parser.skipToSemicolon _ _ = Some _ |- _ =>
             apply parsed_on_skipToSemicolon in H
         end;
  chain 12.

Ltac crack H :=
  repeat match type of H with
         | context [match ?x with _ => _ end] =>
             lazymatch x with
             | context [match _ with _ => _ end] => fail
             | _ => destruct x eqn:?
             end
         end;
  try discriminate.

Lemma parsed_on_parseLetStatement fuel p s p' :
  parser.parseLetStatement fuel p = Some (s, p') -> parsed_on p p'.
Proof.
  unfold parser.parseLetStatement. intros H. crack H;
    injection H as <- <-; parsed_on_steps.
Qed.

Lemma parsed_on_parseReturnStatement fuel p s p' :
  parser.parseReturnStatement fuel p = Some (s, p') -> parsed_on p p'.
Proof.
  unfold parser.parseReturnStatement. intros H. crack H.
  injection H as <- <-. parsed_on_steps.
Qed.

Section ParsedOn.

Variable fuel : nat.
Variable parseExpression : nat -> parser.Parse (option Expression).
Variable parseStatement : parser.Parse (option Statement).
Hypothesis parseExpression_on :
  forall prec p r p', parseExpression prec p = Some (r, p') -> parsed_on p p'.
Hypothesis parseStatement_on :
  forall p r p', parseStatement p = Some (r, p') -> parsed_on p p'.

Ltac rec_steps :=
  repeat match goal with
         | H : parseExpression _ _ = Some _ |- _ =>
             apply parseExpression_on in H
         | H : parseStatement _ = Some _ |- _ => apply parseStatement_on in H
         end.

Lemma parsed_on_parsePrefixExpression p r p' :
  parser.parsePrefixExpression parseExpression p = Some (r, p') ->
  parsed_on p p'.
Proof.
  unfold parser.parsePrefixExpression. intros H. crack H.
  injection H as <- <-. rec_steps. parsed_on_steps.
Qed.

Lemma parsed_on_parseGroupedExpression p r p' :
  parser.parseGroupedExpression parseExpression p = Some (r, p') ->
  parsed_on p p'.
Proof.
  unfold parser.parseGroupedExpression. intros H. crack H;
    injection H as <- <-; rec_steps; parsed_on_steps.
Qed.

Lemma parsed_on_parseBlockStatements n :
  forall acc p stmts p',
    parser.parseBlockStatements parseStatement n acc p = Some (stmts, p') ->
    parsed_on p p'.
Proof.
  induction n as [| n IH]; intros acc p stmts p'; cbn;
    destruct (_ && _);
    try (intros [= <- <-]; apply parsed_on_refl); try discriminate.
  destruct (parseStatement p) as [[stmt p0] |] eqn:E; [| discriminate].
  intros H. apply IH in H. rec_steps. parsed_on_steps.
Qed.

Lemma parsed_on_parseBlockStatement p b p' :
  parser.parseBlockStatement fuel parseStatement p = Some (b, p') ->
  parsed_on p p'.
Proof.
  unfold parser.parseBlockStatement.
  destruct (parser.parseBlockStatements _ _ _ _) as [[stmts p0] |] eqn:E;
    [| discriminate].
  intros [= <- <-]. apply parsed_on_parseBlockStatements in E.
  parsed_on_steps.
Qed.

Lemma parsed_on_parseIfExpression p r p' :
  parser.parseIfExpression fuel parseExpression parseStatement p
  = Some (r, p') ->
  parsed_on p p'.
Proof.
  unfold parser.parseIfExpression. intros H. crack H;
    injection H as <- <-; rec_steps;
    repeat match goal with
           | H : parser.parseBlockStatement _ _ _ = Some _ |- _ =>
               apply parsed_on_parseBlockStatement in H
           end;
    parsed_on_steps.
Qed.

Lemma parsed_on_parseInfixExpression lhs p r p' :
  parser.parseInfixExpression parseExpression lhs p = Some (r, p') ->
  parsed_on p p'.
Proof.
  unfold parser.parseInfixExpression. intros H. crack H.
  injection H as <- <-. rec_steps. parsed_on_steps.
Qed.

Lemma parsed_on_call_prefix fn p r p' :
  parser.call_prefix fuel parseExpression parseStatement fn p = Some (r, p') ->
  parsed_on p p'.
Proof.
  destruct fn; cbn.
  - intros [= <- <-]. apply parsed_on_refl.
  - unfold parser.parseIntegerLiteral. destruct (ParseInt _);
      intros [= <- <-]; [apply parsed_on_refl | apply parsed_on_add_error].
  - apply parsed_on_parsePrefixExpression.
  - intros [= <- <-]. apply parsed_on_refl.
  - apply parsed_on_parseIfExpression.
  - apply parsed_on_parseGroupedExpression.
Qed.

Lemma parsed_on_parseInfixes n :
  forall prec lhs p r p',
    parser.parseInfixes parseExpression n prec lhs p = Some (r, p') ->
    parsed_on p p'.
Proof.
  induction n as [| n IH]; intros prec lhs p r p';
    cbn [parser.parseInfixes];
    destruct (_ && _);
    try (intros [= <- <-]; apply parsed_on_refl);
    destruct (parser.infixParseFns p _) as [[] |];
    try (intros [= <- <-]; apply parsed_on_refl); try discriminate.
  cbn [parser.call_infix].
  destruct (parser.parseInfixExpression parseExpression lhs
              (parser.nextToken p)) as [[e p0] |] eqn:E; [| discriminate].
  intros H. apply IH in H. apply parsed_on_parseInfixExpression in E.
  parsed_on_steps.
Qed.

Lemma parsed_on_parseExpression_body prec p r p' :
  parser.parseExpression_body fuel parseExpression parseStatement prec p
  = Some (r, p') ->
  parsed_on p p'.
Proof.
  unfold parser.parseExpression_body.
  destruct (parser.prefixParseFns p _) as [fn |].
  - destruct (parser.call_prefix _ _ _ _ _) as [[e p0] |] eqn:E;
      [| discriminate].
    intros H. apply parsed_on_parseInfixes in H.
    apply parsed_on_call_prefix in E. parsed_on_steps.
  - intros [= <- <-]. apply parsed_on_add_error.
Qed.

Lemma parsed_on_parseStatement_body p r p' :
  parser.parseStatement_body fuel parseExpression p = Some (r, p') ->
  parsed_on p p'.
Proof.
  unfold parser.parseStatement_body, parser.parseExpressionStatement.
  intros H. crack H; injection H as <- <-; rec_steps;
    repeat match goal with
           | H : parser.parseLetStatement _ _ = Some _ |- _ =>
               apply parsed_on_parseLetStatement in H
           | H : parser.parseReturnStatement _ _ = Some _ |- _ =>
               apply parsed_on_parseReturnStatement in H
           end;
    parsed_on_steps.
Qed.

End ParsedOn.

Lemma parsed_on_parse n :
  (forall prec p r p',
      parser.parseExpression n prec p = Some (r, p') -> parsed_on p p')
  /\ (forall p r p', parser.parseStatement n p = Some (r, p') -> parsed_on p p').
Proof.
  induction n as [| n [IHe IHs]]; [split; discriminate |]. split.
  - intros prec p r p'. cbn [parser.parseExpression].
    now apply parsed_on_parseExpression_body.
  - intros p r p'. cbn [parser.parseStatement].
    now apply parsed_on_parseStatement_body.
Qed.

Lemma parsed_on_parseStatements n :
  forall acc p stmts p',
    parser.parseStatements n acc p = Some (stmts, p') -> parsed_on p p'.
Proof.
  induction n as [| n IH]; intros acc p stmts p'; cbn;
    destruct (bool_decide _);
    try (intros [= <- <-]; apply parsed_on_refl); try discriminate.
  destruct (parser.parseStatement n p) as [[stmt p0] |] eqn:E; [| discriminate].
  intros H. apply IH in H. apply (proj2 (parsed_on_parse n)) in E.
  parsed_on_steps.
Qed.

(** X29. Parsing only appends to the list of errors and never changes the
    two tables of parse functions: the parser that [ParseProgram] leaves
    has the tables it started with and the errors it started with,
    followed by the new ones. *)
Theorem ParseProgram_appends_errors n p prog p' :
  parser.ParseProgram n p = Some (prog, p') -> parsed_on p p'.
Proof.
  unfold parser.ParseProgram.
  destruct (parser.parseStatements n [] p) as [[stmts p0] |] eqn:E;
    [| discriminate].
  intros [= <- <-]. now apply parsed_on_parseStatements in E.
Qed.

Lemma ParseProgram_appends_errors_witness :
  exists prog p',
    parser.ParseProgram 50 (parser.New (lexer.New "let x 5;")) = Some (prog, p')
    /\ parsed_on (parser.New (lexer.New "let x 5;")) p'.
Proof.
  destruct (parser.ParseProgram 50 (parser.New (lexer.New "let x 5;")))
    as [[prog p'] |] eqn:E.
  - exists prog, p'. split; [reflexivity |].
    exact (ParseProgram_appends_errors 50 _ prog p' E).
  - exfalso. vm_compute in E. discriminate.
Defined.

(** ** Programs parsed without errors *)

Lemma cat_Some a b : is_Some a -> is_Some b -> is_Some (cat a b).
Proof. intros [x ->] [y ->]. cbn. eauto. Qed.

Lemma is_Some_Some {A} (x : A) : is_Some (Some x).
Proof. now exists x. Qed.

Fixpoint String_complete (e : Expression) {struct e} :
  complete e = true -> is_Some (Expression_String e)
with String_complete_statement (s : Statement) {struct s} :
  complete_statement s = true -> is_Some (Statement_String s)
with String_complete_block (b : BlockStatement) {struct b} :
  complete_block b = true -> is_Some (BlockStatement_String b).
Proof.
  - destruct e as [i | tok v | tok v | tok op rhs | tok lhs op rhs
                   | tok cond cons alt | tok params body | tok fn args];
      cbn -[cat]; intros H; try apply is_Some_Some.
    + destruct rhs as [r |]; [| discriminate].
      repeat apply cat_Some; try apply is_Some_Some.
      exact (String_complete r H).
    + destruct lhs as [a |]; [| discriminate].
      destruct rhs as [b |]; [| discriminate].
      apply andb_prop in H as [Ha Hb].
      repeat apply cat_Some; try apply is_Some_Some.
      * exact (String_complete a Ha).
      * exact (String_complete b Hb).
    + destruct cond as [c |]; [| discriminate].
      apply andb_prop in H as [H Halt]. apply andb_prop in H as [Hc Hcons].
      repeat apply cat_Some; try apply is_Some_Some.
      * exact (String_complete c Hc).
      * exact (String_complete_block cons Hcons).
      * destruct alt as [a |]; [| apply is_Some_Some].
        apply cat_Some; [apply is_Some_Some |].
        exact (String_complete_block a Halt).
    + apply cat_Some; [apply is_Some_Some |].
      exact (String_complete_block body H).
    + destruct fn as [f |]; [| discriminate].
      apply andb_prop in H as [Hf Hargs].
      repeat apply cat_Some; try apply is_Some_Some.
      * exact (String_complete f Hf).
      * assert (Hall : is_Some
                  (all_some
                     (map (fun a : option Expression =>
                             match a with
                             | Some a0 => Expression_String a0
                             | None => None
                             end) args))).
        { clear Hf. induction args as [| [a |] rest IH]; cbn in *;
            [apply is_Some_Some | | discriminate].
          apply andb_prop in Hargs as [Ha Hrest].
          destruct (String_complete a Ha) as [x ->].
          destruct (IH Hrest) as [l ->]. apply is_Some_Some. }
        destruct Hall as [l ->]. apply is_Some_Some.
  - destruct s as [tok name [e |] | | tok [e |] | tok [e |] | b];
      cbn -[cat]; intros H; try discriminate;
      repeat apply cat_Some; try apply is_Some_Some;
      try exact (String_complete e H).
    exact (String_complete_block b H).
  - destruct b as [tok stmts]. cbn -[cat]. intros H.
    induction stmts as [| s rest IH]; cbn -[cat] in *;
      [apply is_Some_Some |].
    apply andb_prop in H as [Hs Hrest]. apply cat_Some.
    + exact (String_complete_statement s Hs).
    + exact (IH Hrest).
Qed.

Lemma nerr_mono p p' : parsed_on p p' -> nerr p <= nerr p'.
Proof.
  intros (_ & _ & new & E). unfold nerr. rewrite E, length_app. lia.
Qed.

Lemma nerr_nextToken p : nerr (parser.nextToken p) = nerr p.
Proof. unfold parser.nextToken. now destruct (lexer.NextToken _). Qed.

Lemma nerr_add_error p msg : nerr (parser.add_error p msg) = S (nerr p).
Proof. unfold nerr. cbn. rewrite length_app. cbn. lia. Qed.

Lemma expectPeek_quiet t p b p' :
  parser.expectPeek t p = (b, p') -> nerr p' <= nerr p ->
  b = true /\ nerr p' = nerr p.
Proof.
  unfold parser.expectPeek. destruct (parser.peekTokenIs t p);
    intros [= <- <-] H.
  - split; [reflexivity | apply nerr_nextToken].
  - unfold parser.peekError in H. rewrite nerr_add_error in H. lia.
Qed.

Section Complete.

Variable fuel : nat.
Variable parseExpression : nat -> parser.Parse (option Expression).
Variable parseStatement : parser.Parse (option Statement).
Hypothesis parseExpression_on :
  forall prec p r p', parseExpression prec p = Some (r, p') -> parsed_on p p'.
Hypothesis parseStatement_on :
  forall p r p', parseStatement p = Some (r, p') -> parsed_on p p'.
Hypothesis parseExpression_ok :
  forall prec, quiet_complete complete (parseExpression prec).
Hypothesis parseStatement_ok : quiet_complete complete_statement parseStatement.

Lemma complete_parsePrefixExpression :
  quiet_complete complete (parser.parsePrefixExpression parseExpression).
Proof.
  intros p r p'. unfold parser.parsePrefixExpression.
  destruct (parseExpression _ _) as [[rhs p1] |] eqn:E; [| discriminate].
  intros [= <- <-] Hq. rewrite <- (nerr_nextToken p) in Hq.
  destruct (parseExpression_ok _ _ _ _ E Hq) as (e & -> & He).
  eexists. split; [reflexivity | exact He].
Qed.

Lemma complete_parseGroupedExpression :
  quiet_complete complete (parser.parseGroupedExpression parseExpression).
Proof.
  intros p r p'. unfold parser.parseGroupedExpression.
  destruct (parseExpression _ _) as [[exp p1] |] eqn:E; [| discriminate].
  destruct (parser.expectPeek RPAREN p1) as [ok p2] eqn:Ep.
  pose proof (nerr_mono _ _ (parseExpression_on _ _ _ _ E)) as M1.
  pose proof (nerr_mono _ _ (parsed_on_expectPeek _ _ _ _ Ep)) as M2.
  rewrite nerr_nextToken in M1.
  intros H Hq.
  assert (nerr p' = nerr p2) by (destruct ok; now injection H as <- <-).
  destruct (expectPeek_quiet _ _ _ _ Ep ltac:(lia)) as [-> _].
  injection H as <- <-.
  apply (parseExpression_ok _ _ _ _ E). rewrite nerr_nextToken. lia.
Qed.

Lemma complete_parseBlockStatements n :
  forall acc p stmts p',
    parser.parseBlockStatements parseStatement n acc p = Some (stmts, p') ->
    nerr p' <= nerr p ->
    forallb complete_statement acc = true ->
    forallb complete_statement stmts = true.
Proof.
  induction n as [| n IH]; intros acc p stmts p'; cbn;
    destruct (_ && _); try (now intros [= <- <-]); try discriminate.
  destruct (parseStatement p) as [[stmt p0] |] eqn:E; [| discriminate].
  intros H Hq Hacc.
  pose proof (nerr_mono _ _ (parseStatement_on _ _ _ E)) as M1.
  pose proof (nerr_mono _ _ (parsed_on_parseBlockStatements _
                               parseStatement_on _ _ _ _ _ H)) as M2.
  rewrite nerr_nextToken in M2.
  destruct (parseStatement_ok _ _ _ E ltac:(lia)) as (s & -> & Hs).
  apply (IH _ _ _ _ H); [rewrite nerr_nextToken; lia |].
  rewrite forallb_app. cbn. now rewrite Hacc, Hs.
Qed.

Lemma complete_parseBlockStatement p b p' :
  parser.parseBlockStatement fuel parseStatement p = Some (b, p') ->
  nerr p' <= nerr p -> complete_block b = true.
Proof.
  unfold parser.parseBlockStatement.
  destruct (parser.parseBlockStatements _ _ _ _) as [[stmts p0] |] eqn:E;
    [| discriminate].
  intros [= <- <-] Hq. cbn.
  apply (complete_parseBlockStatements _ _ _ _ _ E);
    [rewrite nerr_nextToken; lia | reflexivity].
Qed.

Lemma complete_parseIfExpression :
  quiet_complete complete
    (parser.parseIfExpression fuel parseExpression parseStatement).
Proof.
  intros p r p'. unfold parser.parseIfExpression.
  destruct (parser.expectPeek LPAREN p) as [ok1 p1] eqn:E1.
  pose proof (nerr_mono _ _ (parsed_on_expectPeek _ _ _ _ E1)) as M1.
  destruct ok1; cbn [negb].
  2: { intros [= <- <-] Hq.
       destruct (expectPeek_quiet _ _ _ _ E1 Hq). discriminate. }
  destruct (parseExpression _ _) as [[cond p2] |] eqn:E2; [| discriminate].
  pose proof (nerr_mono _ _ (parseExpression_on _ _ _ _ E2)) as M2.
  rewrite nerr_nextToken in M2.
  destruct (parser.expectPeek RPAREN p2) as [ok3 p3] eqn:E3.
  pose proof (nerr_mono _ _ (parsed_on_expectPeek _ _ _ _ E3)) as M3.
  destruct ok3; cbn [negb].
  2: { intros [= <- <-] Hq.
       destruct (expectPeek_quiet _ _ _ _ E3 ltac:(lia)). discriminate. }
  destruct (parser.expectPeek LBRACE p3) as [ok4 p4] eqn:E4.
  pose proof (nerr_mono _ _ (parsed_on_expectPeek _ _ _ _ E4)) as M4.
  destruct ok4; cbn [negb].
  2: { intros [= <- <-] Hq.
       destruct (expectPeek_quiet _ _ _ _ E4 ltac:(lia)). discriminate. }
  destruct (parser.parseBlockStatement _ _ p4) as [[cons p5] |] eqn:E5;
    [| discriminate].
  pose proof (nerr_mono _ _ (parsed_on_parseBlockStatement _ _
                               parseStatement_on _ _ _ E5)) as M5.
  assert (Hcond : nerr p5 <= nerr p ->
                  exists c, cond = Some c /\ complete c = true
                            /\ complete_block cons = true).
  { intros Hq.
    destruct (parseExpression_ok _ _ _ _ E2) as (c & -> & Hc);
      [rewrite nerr_nextToken; lia |].
    exists c. repeat split; [exact Hc |].
    apply (complete_parseBlockStatement _ _ _ E5). lia. }
  destruct (parser.peekTokenIs ELSE p5).
  - destruct (parser.expectPeek LBRACE (parser.nextToken p5))
      as [ok6 p6] eqn:E6.
    pose proof (nerr_mono _ _ (parsed_on_expectPeek _ _ _ _ E6)) as M6.
    rewrite nerr_nextToken in M6.
    destruct ok6; cbn [negb].
    2: { intros [= <- <-] Hq.
         destruct (expectPeek_quiet _ _ _ _ E6); [| discriminate].
         rewrite nerr_nextToken. lia. }
    destruct (parser.parseBlockStatement _ _ p6) as [[alt p7] |] eqn:E7;
      [| discriminate].
    pose proof (nerr_mono _ _ (parsed_on_parseBlockStatement _ _
                                 parseStatement_on _ _ _ E7)) as M7.
    intros [= <- <-] Hq.
    destruct Hcond as (c & -> & Hc & Hcons); [lia |].
    eexists. split; [reflexivity |]. cbn. rewrite Hc, Hcons. cbn.
    apply (complete_parseBlockStatement _ _ _ E7). lia.
  - intros [= <- <-] Hq.
    destruct Hcond as (c & -> & Hc & Hcons); [lia |].
    eexists. split; [reflexivity |]. cbn. now rewrite Hc, Hcons.
Qed.

Lemma complete_parseInfixExpression lhs :
  complete lhs = true ->
  quiet_complete complete
    (parser.parseInfixExpression parseExpression (Some lhs)).
Proof.
  intros Hl p r p'. unfold parser.parseInfixExpression.
  destruct (parseExpression _ _) as [[rhs p1] |] eqn:E; [| discriminate].
  intros [= <- <-] Hq. rewrite <- (nerr_nextToken p) in Hq.
  destruct (parseExpression_ok _ _ _ _ E Hq) as (e & -> & He).
  eexists. split; [reflexivity |]. cbn. now rewrite Hl, He.
Qed.

Lemma complete_call_prefix fn :
  quiet_complete complete
    (parser.call_prefix fuel parseExpression parseStatement fn).
Proof.
  destruct fn; cbn.
  - intros p r p' [= <- <-] _. eexists. split; reflexivity.
  - intros p r p'. unfold parser.parseIntegerLiteral.
    destruct (ParseInt _); intros [= <- <-] Hq.
    + eexists. split; reflexivity.
    + rewrite nerr_add_error in Hq. lia.
  - apply complete_parsePrefixExpression.
  - intros p r p' [= <- <-] _. eexists. split; reflexivity.
  - apply complete_parseIfExpression.
  - apply complete_parseGroupedExpression.
Qed.

Lemma complete_parseInfixes n :
  forall prec lhs,
    complete lhs = true ->
    quiet_complete complete
      (parser.parseInfixes parseExpression n prec (Some lhs)).
Proof.
  induction n as [| n IH]; intros prec lhs Hl p r p';
    cbn [parser.parseInfixes];
    destruct (_ && _);
    try (intros [= <- <-] _; eexists; split; [reflexivity | exact Hl]);
    destruct (parser.infixParseFns p _) as [[] |];
    try (intros [= <- <-] _; eexists; split; [reflexivity | exact Hl]);
    try discriminate.
  cbn [parser.call_infix].
  destruct (parser.parseInfixExpression parseExpression (Some lhs)
              (parser.nextToken p)) as [[e p0] |] eqn:E; [| discriminate].
  intros H Hq.
  pose proof (nerr_mono _ _ (parsed_on_parseInfixExpression _
                               parseExpression_on _ _ _ _ E)) as M1.
  pose proof (nerr_mono _ _ (parsed_on_parseInfixes _ parseExpression_on
                               _ _ _ _ _ _ H)) as M2.
  rewrite nerr_nextToken in M1.
  destruct (complete_parseInfixExpression lhs Hl _ _ _ E) as (e' & -> & He);
    [rewrite nerr_nextToken; lia |].
  apply (IH _ _ He _ _ _ H). lia.
Qed.

Lemma complete_parseExpression_body prec :
  quiet_complete complete
    (parser.parseExpression_body fuel parseExpression parseStatement prec).
Proof.
  intros p r p'. unfold parser.parseExpression_body.
  destruct (parser.prefixParseFns p _) as [fn |].
  - destruct (parser.call_prefix _ _ _ _ _) as [[e p0] |] eqn:E;
      [| discriminate].
    intros H Hq.
    pose proof (nerr_mono _ _ (parsed_on_call_prefix _ _ _ parseExpression_on
                                 parseStatement_on _ _ _ _ E)) as M1.
    destruct e as [e |].
    + pose proof (nerr_mono _ _ (parsed_on_parseInfixes _ parseExpression_on
                                   _ _ _ _ _ _ H)) as M2.
      destruct (complete_call_prefix fn _ _ _ E) as (e' & [= <-] & He);
        [lia |].
      apply (complete_parseInfixes _ _ _ He _ _ _ H). lia.
    + assert (M2 : nerr p0 <= nerr p').
      { apply nerr_mono.
        eapply (parsed_on_parseInfixes _ parseExpression_on). exact H. }
      destruct (complete_call_prefix fn _ _ _ E) as (e' & [=] & _). lia.
  - intros [= <- <-] Hq. unfold parser.noPrefixParseFnError in Hq.
    rewrite nerr_add_error in Hq. lia.
Qed.

Lemma complete_parseStatement_body :
  quiet_complete complete_statement
    (parser.parseStatement_body fuel parseExpression).
Proof.
  intros p r p'. unfold parser.parseStatement_body.
  assert (Hexp : forall r p',
             match parser.parseExpressionStatement parseExpression p with
             | Some (s, p) => Some (Some s, p)
             | None => None
             end = Some (r, p') ->
             nerr p' <= nerr p ->
             exists a, r = Some a /\ complete_statement a = true).
  { clear r p'. intros r p'. unfold parser.parseExpressionStatement.
    destruct (parseExpression _ _) as [[e p0] |] eqn:E; [| discriminate].
    intros [= <- <-] Hq.
    destruct (parseExpression_ok _ _ _ _ E) as (e' & -> & He).
    - destruct (parser.peekTokenIs SEMICOLON p0);
        rewrite ?nerr_nextToken in Hq; exact Hq.
    - eexists. split; [reflexivity | exact He]. }
  destruct (token.Type_ (parser.curToken p)); try apply Hexp.
  - destruct (parser.parseLetStatement fuel p) as [[s p0] |] eqn:E;
      [| discriminate].
    intros [= <- <-] Hq. eexists. split; [reflexivity |].
    unfold parser.parseLetStatement in E.
    destruct (parser.expectPeek IDENT p) as [ok1 p1] eqn:E1.
    pose proof (nerr_mono _ _ (parsed_on_expectPeek _ _ _ _ E1)) as M1.
    destruct ok1; cbn [negb] in E.
    2: { injection E as <- <-.
         destruct (expectPeek_quiet _ _ _ _ E1 Hq). discriminate. }
    destruct (parser.expectPeek ASSIGN p1) as [ok2 p2] eqn:E2.
    pose proof (nerr_mono _ _ (parsed_on_expectPeek _ _ _ _ E2)) as M2.
    destruct ok2; cbn [negb] in E.
    2: { injection E as <- <-.
         destruct (expectPeek_quiet _ _ _ _ E2 ltac:(lia)). discriminate. }
    destruct (parser.skipToSemicolon fuel p2); [| discriminate].
    now injection E as <- <-.
  - unfold parser.parseReturnStatement.
    destruct (parser.skipToSemicolon fuel _); [| discriminate].
    intros [= <- <-] _. eexists. split; reflexivity.
Qed.

End Complete.

Lemma complete_parse n :
  (forall prec, quiet_complete complete (parser.parseExpression n prec))
  /\ quiet_complete complete_statement (parser.parseStatement n).
Proof.
  induction n as [| n [IHe IHs]]; [split; intros; intros ? ? ?; discriminate |].
  pose proof (parsed_on_parse n) as [One Ons]. split.
  - intros prec. cbn [parser.parseExpression].
    now apply complete_parseExpression_body.
  - cbn [parser.parseStatement]. now apply complete_parseStatement_body.
Qed.

Lemma complete_parseStatements n :
  forall acc p stmts p',
    parser.parseStatements n acc p = Some (stmts, p') ->
    nerr p' <= nerr p ->
    forallb complete_statement acc = true ->
    forallb complete_statement stmts = true.
Proof.
  induction n as [| n IH]; intros acc p stmts p'; cbn;
    destruct (bool_decide _); try (now intros [= <- <-]); try discriminate.
  destruct (parser.parseStatement n p) as [[stmt p0] |] eqn:E; [| discriminate].
  intros H Hq Hacc.
  pose proof (nerr_mono _ _ (proj2 (parsed_on_parse n) _ _ _ E)) as M1.
  pose proof (nerr_mono _ _ (parsed_on_parseStatements _ _ _ _ _ H)) as M2.
  rewrite nerr_nextToken in M2.
  destruct (proj2 (complete_parse n) _ _ _ E ltac:(lia)) as (s & -> & Hs).
  apply (IH _ _ _ _ H); [rewrite nerr_nextToken; lia |].
  rewrite forallb_app. cbn. now rewrite Hacc, Hs.
Qed.

(** X30. A program that was parsed without a parse error can be printed:
    when [ParseProgram] returns with an empty list of errors, [String()]
    of the program returns a string and does not panic. *)
Theorem parsed_without_errors_prints n src prog :
  parser.parse n src = Some (prog, []) ->
  exists s, Program_String prog = Some s.
Proof.
  unfold parser.parse, parser.ParseProgram.
  destruct (parser.parseStatements n [] _) as [[stmts p'] |] eqn:E;
    [| discriminate].
  intros [= <- He]. unfold Program_String. cbn [Statements].
  apply (String_complete_block (Block token.zero stmts)). cbn.
  apply (complete_parseStatements _ _ _ _ _ E); [| reflexivity].
  unfold nerr. unfold parser.Errors in He. rewrite He. cbn. lia.
Qed.

Lemma parsed_without_errors_prints_witness :
  exists s,
    Program_String
      (mkProgram
         [ExpressionStatement (mkToken MINUS "-")
            (Some (PrefixExpression (mkToken MINUS "-") "-"
                     (Some (Ident (mkIdentifier (mkToken IDENT "a") "a")))))])
    = Some s.
Proof.
  apply (parsed_without_errors_prints 20 "-a;"). vm_compute. reflexivity.
Defined.
